(** * BatchAudioNormalizer: the worker and the window of [BatchAudioNormalizer.py]

    A shallow embedding of [AudioNormalizerWorker] (the normalisation
    arithmetic in float32, the per-file pipeline with its [try]/[except],
    the polled stop flag and the emitted Qt signals) and of the slots of
    [AudioNormalizerApp], together with the properties of the
    specification stated and settled against it and further properties of
    the code. *)

From Stdlib Require Import Reals Lra Lia ZArith List Ascii String.
From Stdlib Require Import QArith Qround Qpower.
From Stdlib Require Lqa Floats Uint63 DecimalString.
From stdpp Require Import gmap strings list sorting.

Set Default Proof Using "Type".

(** ** Sample arithmetic

    [librosa.load] returns float32 samples, and under the promotion rules
    of NumPy 2 a Python scalar that meets a float32 value is converted to
    float32 first, so the arithmetic on samples is float32 arithmetic;
    Python's own floats are doubles.  A finite value carries the real
    number it denotes.  Every operation returns the exact result rounded to
    the nearest value of its format (ties to even), with gradual underflow
    and overflow to infinity, and the IEEE special values follow the rules
    that produce them (0/0, log 0, 0 * inf, inf - inf, ...).  The library
    functions (square root, logarithm, power) are taken as correctly
    rounded.  Signed zeros are not distinguished. *)

Module NP.

Local Open Scope R_scope.

Inductive npfloat : Type :=
| Fin (r : R)
| PInf
| NInf
| NaN.

(** A binary format: the number of significand bits, and the exponent
    [emax] such that the finite values are below [2^emax]. *)
Record format : Type := Format { prec : Z; emax : Z }.

Definition binary32 : format := {| prec := 24; emax := 128 |}.
Definition binary64 : format := {| prec := 53; emax := 1024 |}.

(** [2^e] *)
Definition bpow (e : Z) : R := powerRZ 2 e.

(** [floor (log2 x)], for [x > 0]. *)
Definition ilog2 (x : R) : Z := Int_part (ln x / ln 2).

(** The nearest integer, ties to even. *)
Definition rne (x : R) : Z :=
  let f := Int_part x in
  if Rlt_dec (x - IZR f) (1 / 2) then f
  else if Rlt_dec (1 / 2) (x - IZR f) then (f + 1)%Z
  else if Z.even f then f else (f + 1)%Z.

Definition opp (x : npfloat) : npfloat :=
  match x with
  | Fin r => Fin (- r)
  | PInf => NInf
  | NInf => PInf
  | NaN => NaN
  end.

(** Rounding of [x > 0]: to a multiple of the quantum of its binade (of
    the smallest binade for a subnormal), to infinity when the result
    reaches [2^emax]. *)
Definition round_pos (fmt : format) (x : R) : npfloat :=
  let e := Z.max (ilog2 x) (2 - emax fmt) in
  let quantum := bpow (e - (prec fmt - 1)) in
  let y := IZR (rne (x / quantum)) * quantum in
  if Rle_dec (bpow (emax fmt)) y then PInf else Fin y.

Definition round (fmt : format) (x : R) : npfloat :=
  if Rlt_dec 0 x then round_pos fmt x
  else if Rlt_dec x 0 then opp (round_pos fmt (- x))
  else Fin 0.

Definition float32 : R -> npfloat := round binary32.
Definition float64 : R -> npfloat := round binary64.

(** A Python float or a double converted to float32. *)
Definition as_float32 (x : npfloat) : npfloat :=
  match x with
  | Fin r => float32 r
  | _ => x
  end.

Definition Rpos_b (r : R) : bool := if Rlt_dec 0 r then true else false.
Definition Rzero_b (r : R) : bool := if Req_dec_T r 0 then true else false.

(** The infinity of the given sign, or of the opposite sign. *)
Definition inf (positive : bool) : npfloat := if positive then PInf else NInf.

(** [r * (+-inf)]: invalid for [r = 0], otherwise the sign rule. *)
Definition scale_inf (r : R) (positive : bool) : npfloat :=
  if Rzero_b r then NaN
  else if Rpos_b r then inf positive else inf (negb positive).

Definition fmul (x y : npfloat) : npfloat :=
  match x, y with
  | NaN, _ | _, NaN => NaN
  | Fin a, Fin b => float32 (a * b)
  | Fin a, PInf | PInf, Fin a => scale_inf a true
  | Fin a, NInf | NInf, Fin a => scale_inf a false
  | PInf, PInf | NInf, NInf => PInf
  | PInf, NInf | NInf, PInf => NInf
  end.

(** Division in a format; [fdiv] is the division of float32. *)
Definition div (fmt : format) (x y : npfloat) : npfloat :=
  match x, y with
  | NaN, _ | _, NaN => NaN
  | Fin a, Fin b =>
      if Rzero_b b then (if Rzero_b a then NaN else inf (Rpos_b a))
      else round fmt (a / b)
  | Fin _, (PInf | NInf) => Fin 0
  | PInf, Fin b => if Rlt_dec b 0 then NInf else PInf
  | NInf, Fin b => if Rlt_dec b 0 then PInf else NInf
  | (PInf | NInf), (PInf | NInf) => NaN
  end.

Definition fdiv : npfloat -> npfloat -> npfloat := div binary32.

Definition fadd (x y : npfloat) : npfloat :=
  match x, y with
  | NaN, _ | _, NaN => NaN
  | Fin a, Fin b => float32 (a + b)
  | PInf, NInf | NInf, PInf => NaN
  | PInf, _ | _, PInf => PInf
  | NInf, _ | _, NInf => NInf
  end.

Definition fsub (x y : npfloat) : npfloat :=
  match x, y with
  | NaN, _ | _, NaN => NaN
  | Fin a, Fin b => float32 (a - b)
  | PInf, PInf | NInf, NInf => NaN
  | PInf, _ | _, NInf => PInf
  | NInf, _ | _, PInf => NInf
  end.

(** [np.abs], [np.sqrt], [np.log10] and [10 ** x] on one value. *)
Definition np_abs1 (x : npfloat) : npfloat :=
  match x with
  | Fin r => Fin (Rabs r)
  | PInf | NInf => PInf
  | NaN => NaN
  end.

Definition np_sqrt (x : npfloat) : npfloat :=
  match x with
  | Fin r => if Rlt_dec r 0 then NaN else float32 (sqrt r)
  | PInf => PInf
  | NInf | NaN => NaN
  end.

Definition np_log10 (x : npfloat) : npfloat :=
  match x with
  | Fin r =>
      if Rzero_b r then NInf
      else if Rpos_b r then float32 (ln r / ln 10) else NaN
  | PInf => PInf
  | NInf | NaN => NaN
  end.

Definition pow10 (x : npfloat) : npfloat :=
  match x with
  | Fin r => float32 (Rpower 10 r)
  | PInf => PInf
  | NInf => Fin 0
  | NaN => NaN
  end.

(** [x > 0]: false for NaN. *)
Definition gt0 (x : npfloat) : bool :=
  match x with
  | Fin r => Rpos_b r
  | PInf => true
  | NInf | NaN => false
  end.

(** The binary step of [np.max]: NaN propagates. *)
Definition fmax (x y : npfloat) : npfloat :=
  match x, y with
  | NaN, _ | _, NaN => NaN
  | PInf, _ | _, PInf => PInf
  | NInf, z | z, NInf => z
  | Fin a, Fin b => Fin (Rmax a b)
  end.

End NP.
Export NP.

(** ** Exceptions

    Only [str(e)] of a caught exception is observed (it is spliced into the
    error label), so an exception is its message. *)

Inductive exn : Type := Exception (msg : string).

Definition str (e : exn) : string := let 'Exception m := e in m.

(** [np.max] of an array without elements. *)
Definition ValueError_empty_max : exn :=
  Exception "zero-size array to reduction operation maximum which has no identity".

(** Reading [normalized_audio] when no branch of the method dispatch bound it. *)
Definition UnboundLocalError_normalized_audio : exn :=
  Exception "cannot access local variable 'normalized_audio' where it is not associated with a value".

(** ** Sample buffers

    [librosa.load] returns a one-dimensional array for mono audio and an
    array of shape (channels, frames) with at least two channels
    otherwise. *)

Inductive ndarray : Type :=
| Arr1 (frames : list npfloat)
| Arr2 (ch0 ch1 : list npfloat) (more : list (list npfloat)).

(** [audio.ndim > 1] *)
Definition ndim_gt_1 (audio : ndarray) : bool :=
  match audio with Arr1 _ => false | Arr2 _ _ _ => true end.

Definition channels (audio : ndarray) : list (list npfloat) :=
  match audio with
  | Arr1 xs => [xs]
  | Arr2 c0 c1 more => c0 :: c1 :: more
  end.

(** All elements, in row order. *)
Definition flat (audio : ndarray) : list npfloat := concat (channels audio).

(** [xs * g] for a scalar [g]. *)
Definition scale (g : npfloat) (xs : list npfloat) : list npfloat :=
  map (fun x => fmul x g) xs.

(** [audio * g] *)
Definition mul_scalar (audio : ndarray) (g : npfloat) : ndarray :=
  match audio with
  | Arr1 xs => Arr1 (scale g xs)
  | Arr2 c0 c1 more => Arr2 (scale g c0) (scale g c1) (map (scale g) more)
  end.

(** [xs ** 2] *)
Definition square (xs : list npfloat) : list npfloat :=
  map (fun x => fmul x x) xs.

Definition np_abs (xs : list npfloat) : list npfloat := map np_abs1 xs.

(** [np.sum]: the elements added in order.  (numpy adds a long array in
    blocks; the statements below are about sums of zeros and of a single
    sample, where the order plays no part.) *)
Definition np_sum (xs : list npfloat) : npfloat := fold_left fadd xs (Fin 0).

(** [np.mean]: the float32 sum over the count, divided as doubles and
    converted back to float32; the mean of no element is 0/0 = NaN. *)
Definition np_mean (xs : list npfloat) : npfloat :=
  as_float32 (div binary64 (np_sum xs) (Fin (INR (length xs)))).

(** [np.max] raises on an array without elements. *)
Definition np_max (xs : list npfloat) : exn + npfloat :=
  match xs with
  | [] => inl ValueError_empty_max
  | x :: rest => inr (fold_left fmax rest x)
  end.

(** The first [n] columns of a list of rows. *)
Fixpoint columns (n : nat) (rs : list (list npfloat)) : list (list npfloat) :=
  match n with
  | O => []
  | S n' => map (hd NaN) rs :: columns n' (map (@tl npfloat) rs)
  end.

(** [np.mean(audio, axis=0)] of a two-dimensional array. *)
Definition np_mean_axis0 (rs : list (list npfloat)) : list npfloat :=
  map np_mean (columns (length (hd [] rs)) rs).

(** [sqrt(mean(xs ** 2))] *)
Definition rms (xs : list npfloat) : npfloat := np_sqrt (np_mean (square xs)).

(** ** Normalisation (the method dispatch of [run])

    The result is the binding of [normalized_audio] after the
    [if]/[elif]/[elif]: [None] when no branch matched the method name. *)

(** [10 ** (target_level / 20.0)], computed by Python on doubles.  (Where
    the power overflows, Python raises [OverflowError] instead of
    returning infinity; that takes a level above 6000 dB, and the window
    passes levels between -60 and 0.) *)
Definition target_amplitude (target_level : R) : npfloat :=
  match float64 (target_level / 20) with
  | Fin y => float64 (Rpower 10 y)
  | PInf => PInf
  | NInf => Fin 0
  | NaN => NaN
  end.

(** [target_rms / current_rms if current_rms > 0 else 1.0]: the Python
    float meets a float32 value. *)
Definition rms_gain (target_rms current_rms : npfloat) : npfloat :=
  if gt0 current_rms then fdiv (as_float32 target_rms) current_rms else Fin 1.

Definition normalize (normalize_method : string) (target_level : R)
    (audio : ndarray) : exn + option ndarray :=
  if String.eqb normalize_method "peak" then
    match np_max (np_abs (flat audio)) with
    | inl e => inl e
    | inr max_amplitude =>
        inr (Some (if gt0 max_amplitude
                   then mul_scalar audio
                          (fdiv (as_float32 (target_amplitude target_level))
                                max_amplitude)
                   else audio))
    end
  else if String.eqb normalize_method "rms" then
    let target_rms := target_amplitude target_level in
    match audio with
    | Arr2 c0 c1 _ =>
        let current_rms_left := rms c0 in
        let current_rms_right := rms c1 in
        let gain_left := rms_gain target_rms current_rms_left in
        let gain_right := rms_gain target_rms current_rms_right in
        inr (Some (Arr2 (scale gain_left c0) (scale gain_right c1) []))
    | Arr1 xs =>
        let current_rms := rms xs in
        let gain := rms_gain target_rms current_rms in
        inr (Some (mul_scalar audio gain))
    end
  else if String.eqb normalize_method "loudness" then
    let target_loudness := Fin target_level in
    let mono_audio :=
      match audio with
      | Arr2 _ _ _ => np_mean_axis0 (channels audio)
      | Arr1 xs => xs
      end in
    let current_loudness :=
      fsub (fmul (Fin 20) (np_log10 (np_sqrt (np_mean (square mono_audio)))))
           (Fin 23) in
    let gain :=
      pow10 (fdiv (fsub (as_float32 target_loudness) current_loudness) (Fin 20)) in
    inr (Some (mul_scalar audio gain))
  else inr None.

(** ** Python float arithmetic of the progress computation

    [int((i + 1) / total_files * 100)] is evaluated in binary64: the true
    division of two ints and the product with 100 are each rounded to the
    nearest double (ties to even), and [int] truncates toward zero.  A
    double is represented by the rational it denotes; the values that occur
    lie in (0, 100], far from overflow and underflow, so the exponent range
    is not modelled. *)

Module Binary64.

Local Open Scope Q_scope.

(** [floor (log2 q)] for [q > 0]. *)
Definition binade (q : Q) : Z :=
  let d := (Z.log2 (Qnum q) - Z.log2 (Zpos (Qden q)))%Z in
  if Qle_bool (2 ^ d) q then d else (d - 1)%Z.

(** Nearest integer, ties to even. *)
Definition rne (q : Q) : Z :=
  let f := Qfloor q in
  match Qcompare (q - inject_Z f) (1 # 2) with
  | Lt => f
  | Gt => (f + 1)%Z
  | Eq => if Z.even f then f else (f + 1)%Z
  end.

(** Nearest number with a 53-bit significand, for [q > 0]. *)
Definition round_pos (q : Q) : Q :=
  let e := (binade q - 52)%Z in
  inject_Z (rne (q / 2 ^ e)) * 2 ^ e.

Definition round (q : Q) : Q :=
  match Qcompare q 0 with
  | Eq => 0
  | Gt => round_pos q
  | Lt => - round_pos (- q)
  end.

Definition ZeroDivisionError : exn := Exception "division by zero".

(** [a / b] on Python ints. *)
Definition truediv (a b : Z) : exn + Q :=
  if (b =? 0)%Z then inl ZeroDivisionError
  else inr (round (inject_Z a / inject_Z b)).

(** [x * y] on floats. *)
Definition mul (x y : Q) : Q := round (x * y).

(** [int(x)]: truncation toward zero. *)
Definition int (x : Q) : Z := Z.quot (Qnum x) (Zpos (Qden x)).

End Binary64.

(** [int((i + 1) / total_files * 100)] *)
Definition progress_value (i total_files : nat) : exn + Z :=
  match Binary64.truediv (Z.of_nat i + 1) (Z.of_nat total_files) with
  | inl e => inl e
  | inr q => inr (Binary64.int (Binary64.mul q 100))
  end.

(** ** Signals of the worker *)

Inductive signal : Type :=
| progress_updated (value : Z)
| file_processed (label : string)
| finished.

(** The constructor arguments of [AudioNormalizerWorker]. *)
Record AudioNormalizerWorker : Type := Worker {
  input_files : list string;
  output_folder : string;
  target_format : string;
  target_level : R;
  normalize_method : string;
  bit_depth : Z;
  stereo : bool;
  sample_rate : Z
}.

(** ** The libraries the worker calls

    [os.path] depends on the platform, and the decoders, the resampler and
    the encoders are external programs: the worker is modelled against
    their interfaces.  A writer or encoder returns [None] when it succeeds
    and the exception it raises otherwise. *)

Class OsPath : Type := {
  basename : string -> string;
  splitext : string -> string * string;
  join : string -> string -> string
}.

Record Externals : Type := {
  (** [librosa.load(path, sr=None, mono=...)]: the samples and the native rate *)
  librosa_load : string -> bool -> exn + (ndarray * Z);
  (** [librosa.resample(y, orig_sr=..., target_sr=...)] *)
  librosa_resample : ndarray -> Z -> Z -> exn + ndarray;
  (** [sf.write(path, data, samplerate, subtype=PCM_<bits> or None)] *)
  sf_write : string -> ndarray -> Z -> option Z -> option exn;
  (** [AudioSegment.from_wav(path)] on an existing file *)
  AudioSegment_from_wav : string -> option exn;
  (** [audio_segment.export(path, format="mp3", bitrate=<kbps>k)] *)
  AudioSegment_export : string -> Z -> option exn
}.

(** ** Worker state and the effects of one run

    The state a run touches: the stop flag, the files present in the output
    folder, and the signals emitted so far (oldest first). *)

Record state : Type := State {
  is_running : bool;
  disk : gset string;
  emitted : list signal
}.

(** The state after [__init__], for a given content of the output folder. *)
Definition init (files : gset string) : state :=
  {| is_running := true; disk := files; emitted := [] |}.

(** [AudioNormalizerWorker.stop] *)
Definition stop (s : state) : state :=
  {| is_running := false; disk := disk s; emitted := emitted s |}.

Definition emit (sig : signal) (s : state) : state :=
  {| is_running := is_running s; disk := disk s; emitted := emitted s ++ [sig] |}.

Definition create (path : string) (s : state) : state :=
  {| is_running := is_running s; disk := {[ path ]} ∪ disk s; emitted := emitted s |}.

Definition unlink (path : string) (s : state) : state :=
  {| is_running := is_running s; disk := disk s ∖ {[ path ]}; emitted := emitted s |}.

(** Statements of a [try] body: they change the state and either complete
    with a value or raise. *)
Definition M (A : Type) : Type := state -> state * (exn + A).

Definition ret {A} (a : A) : M A := fun s => (s, inr a).

Definition raise {A} (e : exn) : M A := fun s => (s, inl e).

Definition bind {A B} (m : M A) (k : A -> M B) : M B :=
  fun s =>
    match m s with
    | (s', inr a) => k a s'
    | (s', inl e) => (s', inl e)
    end.

Definition lift {A} (r : exn + A) : M A := fun s => (s, r).

Definition act (f : state -> state) : M unit := fun s => (f s, inr tt).

Declare Scope worker_scope.
Delimit Scope worker_scope with worker.
Notation "x <- m ;; k" := (bind m (fun x => k))
  (at level 100, m at next level, right associativity) : worker_scope.
Notation "m ;; k" := (bind m (fun _ => k))
  (at level 100, right associativity) : worker_scope.

(** A statement is quiet when it leaves the stop flag and the emitted
    signals alone, and stable when the way it ends does not depend on the
    state it starts in. *)
Definition quiet {A} (m : M A) : Prop :=
  forall s, is_running (fst (m s)) = is_running s /\ emitted (fst (m s)) = emitted s.

Definition stable {A} (m : M A) : Prop :=
  forall s1 s2, snd (m s1) = snd (m s2).

Definition FileNotFoundError (path : string) : exn :=
  Exception ("[Errno 2] No such file or directory: '" +:+ path +:+ "'").

Section Worker.

Context {os_path : OsPath} (ext : Externals).

Local Open Scope worker_scope.

(** [sf.write]: the file exists once the call has returned. *)
Definition write (path : string) (data : ndarray) (samplerate : Z)
    (subtype : option Z) : M unit :=
  fun s =>
    match sf_write ext path data samplerate subtype with
    | Some e => (s, inl e)
    | None => (create path s, inr tt)
    end.

(** [AudioSegment.from_wav] reads the file at [path]. *)
Definition from_wav (path : string) : M unit :=
  fun s =>
    if bool_decide (path ∈ disk s) then
      match AudioSegment_from_wav ext path with
      | Some e => (s, inl e)
      | None => (s, inr tt)
      end
    else (s, inl (FileNotFoundError path)).

(** [audio_segment.export]: pydub opens the destination before it runs
    the encoder, so the file is there when the call returns and also when
    the encoder fails. *)
Definition export (path : string) (bitrate : Z) : M unit :=
  fun s =>
    match AudioSegment_export ext path bitrate with
    | Some e => (create path s, inl e)
    | None => (create path s, inr tt)
    end.

(** [os.remove] *)
Definition os_remove (path : string) : M unit :=
  fun s =>
    if bool_decide (path ∈ disk s) then (unlink path s, inr tt)
    else (s, inl (FileNotFoundError path)).

(** Reading the local [normalized_audio]. *)
Definition read_local (normalized_audio : option ndarray) : M ndarray :=
  match normalized_audio with
  | Some a => ret a
  | None => raise UnboundLocalError_normalized_audio
  end.

Definition direct_formats : list string := ["wav"; "flac"; "ogg"].

(** The save step: a direct write for wav, flac and ogg; for mp3 a
    temporary wav beside the destination, transcoded and then removed.
    The writer receives the buffer itself; the transposition [.T] of a
    two-dimensional buffer only changes its layout. *)
Definition save (w : AudioNormalizerWorker) (base_name output_file : string)
    (normalized_audio : option ndarray) : M unit :=
  if existsb (String.eqb (target_format w)) direct_formats then
    let subtype :=
      if String.eqb (target_format w) "wav" then Some (bit_depth w) else None in
    a <- read_local normalized_audio ;;
    write output_file a (sample_rate w) subtype
  else if String.eqb (target_format w) "mp3" then
    let temp_wav := join (output_folder w) (base_name +:+ "_temp.wav") in
    a <- read_local normalized_audio ;;
    write temp_wav a (sample_rate w) None ;;
    (* Convert to mp3 using pydub *)
    from_wav temp_wav ;;
    export output_file (bit_depth w * 8) ;;
    (* Remove temp file *)
    os_remove temp_wav
  else ret tt.

(** Load, normalize, resample if needed, save. *)
Definition pipeline (w : AudioNormalizerWorker) (file_path file_name : string)
    : M unit :=
  let base_name := fst (splitext file_name) in
  let output_file :=
    join (output_folder w) (base_name +:+ "." +:+ target_format w) in
  loaded <- lift (librosa_load ext file_path (negb (stereo w))) ;;
  let audio := fst loaded in
  let sr := snd loaded in
  normalized_audio <-
    lift (normalize (normalize_method w) (target_level w) audio) ;;
  normalized_audio <-
    (if negb (sr =? sample_rate w)%Z then
       a <- read_local normalized_audio ;;
       r <- lift (librosa_resample ext a sr (sample_rate w)) ;;
       ret (Some r)
     else ret normalized_audio) ;;
  save w base_name output_file normalized_audio.

(** The body of the [try] for the file at index [i]: the pipeline, then
    the progress update and the status signal. *)
Definition try_body (w : AudioNormalizerWorker) (total_files i : nat)
    (file_path file_name : string) : M unit :=
  pipeline w file_path file_name ;;
  progress <- lift (progress_value i total_files) ;;
  act (emit (progress_updated progress)) ;;
  act (emit (file_processed file_name)).

Definition error_label (file_name : string) (e : exn) : string :=
  "ERROR: " +:+ file_name +:+ " - " +:+ str e.

(** One iteration of the loop after the flag check: the [try] with its
    [except Exception] handler.  The handler also prints to standard
    output, which is not a signal. *)
Definition process_file (w : AudioNormalizerWorker) (total_files i : nat)
    (file_path : string) (s : state) : state :=
  let file_name := basename file_path in
  match try_body w total_files i file_path file_name s with
  | (s', inr _) => s'
  | (s', inl e) => emit (file_processed (error_label file_name e)) s'
  end.

(** The [for] loop from index [i] on, over the files not yet visited.
    [stop_requested i] tells whether the controlling thread's call of
    [stop] lands before the flag check of iteration [i]. *)
Fixpoint run_loop (w : AudioNormalizerWorker) (stop_requested : nat -> bool)
    (total_files i : nat) (files : list string) (s : state) : state :=
  match files with
  | [] => s
  | file_path :: rest =>
      let s := if stop_requested i then stop s else s in
      if negb (is_running s) then s
      else run_loop w stop_requested total_files (S i) rest
             (process_file w total_files i file_path s)
  end.

(** [AudioNormalizerWorker.run] *)
Definition run (w : AudioNormalizerWorker) (stop_requested : nat -> bool)
    (s : state) : state :=
  let total_files := length (input_files w) in
  emit finished (run_loop w stop_requested total_files 0 (input_files w) s).

(** What the [try] body of a file does, observed from the state after
    [__init__] with an empty output folder: how it ends, and the signals
    of the whole iteration.  Neither depends on the state the iteration
    starts in (lemmas [try_body_outcome] and [process_file_emitted]). *)
Definition outcome (w : AudioNormalizerWorker) (total_files i : nat)
    (file_path : string) : exn + unit :=
  snd (try_body w total_files i file_path (basename file_path) (init ∅)).

Definition file_signals (w : AudioNormalizerWorker) (total_files i : nat)
    (file_path : string) : list signal :=
  emitted (process_file w total_files i file_path (init ∅)).

(** The signals of the iterations [i], [i+1], ... over [files]. *)
Fixpoint loop_signals (w : AudioNormalizerWorker) (total_files i : nat)
    (files : list string) : list signal :=
  match files with
  | [] => []
  | file_path :: rest =>
      file_signals w total_files i file_path
      ++ loop_signals w total_files (S i) rest
  end.

End Worker.

(** The labels of the [file_processed] signals of a stream, in order. *)
Fixpoint labels (sigs : list signal) : list string :=
  match sigs with
  | [] => []
  | file_processed l :: rest => l :: labels rest
  | _ :: rest => labels rest
  end.

(** The values of the [progress_updated] signals of a stream, in order. *)
Fixpoint progress_values (sigs : list signal) : list Z :=
  match sigs with
  | [] => []
  | progress_updated v :: rest => v :: progress_values rest
  | _ :: rest => progress_values rest
  end.

(** The value [progress_value] computes, 0 where it raises. *)
Definition progress_percent (i total_files : nat) : Z :=
  match progress_value i total_files with
  | inr p => p
  | inl _ => 0%Z
  end.

(** The label of the status signal of a file, by how its [try] ended. *)
Definition status_label (file_name : string) (o : exn + unit) : string :=
  match o with
  | inr _ => file_name
  | inl e => error_label file_name e
  end.


(** ** [posixpath], the instance of [os.path] used for concrete runs *)

Module posixpath.

Definition is_sep (c : ascii) : bool := Ascii.eqb c "/".
Definition is_dot (c : ascii) : bool := Ascii.eqb c ".".

(** [p] cut after its last separator: [(head, tail)] with [head] empty or
    ending in ["/"] and [tail] free of separators. *)
Fixpoint split_sep (p : string) : string * string :=
  match p with
  | EmptyString => (EmptyString, EmptyString)
  | String c rest =>
      let (h, t) := split_sep rest in
      match h with
      | String _ _ => (String c h, t)
      | EmptyString =>
          if is_sep c then (String c EmptyString, t)
          else (EmptyString, String c t)
      end
  end.

(** [name] cut at its last dot, unless only dots precede it. *)
Fixpoint split_dot (seen : bool) (name : string) : option (string * string) :=
  match name with
  | EmptyString => None
  | String c rest =>
      match split_dot (seen || negb (is_dot c)) rest with
      | Some (r, e) => Some (String c r, e)
      | None => if is_dot c && seen then Some (EmptyString, name) else None
      end
  end.

Definition basename (p : string) : string := snd (split_sep p).

Definition splitext (p : string) : string * string :=
  let (h, t) := split_sep p in
  match split_dot false t with
  | Some (r, e) => (h +:+ r, e)
  | None => (p, EmptyString)
  end.

Fixpoint ends_with_sep (p : string) : bool :=
  match p with
  | EmptyString => false
  | String c EmptyString => is_sep c
  | String _ rest => ends_with_sep rest
  end.

Definition join (a b : string) : string :=
  match b with
  | String c _ =>
      if is_sep c then b
      else if ends_with_sep a || String.eqb a "" then a +:+ b
      else a +:+ "/" +:+ b
  | EmptyString =>
      if ends_with_sep a || String.eqb a "" then a else a +:+ "/"
  end.

Definition os_path : OsPath := Build_OsPath basename splitext join.

End posixpath.

(** ** A concrete machine, for runs that can be evaluated *)

Module Studio.

Definition decode_error : exn :=
  Exception "Error opening '/in/bad.wav': Format not recognised.".

Definition encode_error : exn :=
  Exception "Encoding failed. ffmpeg/avlib returned error code: 1".

(** Every file decodes to one silent mono frame at 44.1 kHz, except
    [/in/bad.wav], which the decoder rejects. *)
Definition load (file_path : string) (mono : bool) : exn + (ndarray * Z) :=
  if String.eqb file_path "/in/bad.wav" then inl decode_error
  else inr (Arr1 [Fin 0], 44100%Z).

(** A machine on which every library call succeeds. *)
Definition world : Externals :=
  {| librosa_load := load;
     librosa_resample := fun y _ _ => inr y;
     sf_write := fun _ _ _ _ => None;
     AudioSegment_from_wav := fun _ => None;
     AudioSegment_export := fun _ _ => None |}.

(** The same machine with a transcoder that fails. *)
Definition world_broken_encoder : Externals :=
  {| librosa_load := load;
     librosa_resample := fun y _ _ => inr y;
     sf_write := fun _ _ _ _ => None;
     AudioSegment_from_wav := fun _ => None;
     AudioSegment_export := fun _ _ => Some encode_error |}.

Definition job (files : list string) (format : string) : AudioNormalizerWorker :=
  {| input_files := files; output_folder := "/out"; target_format := format;
     target_level := (-5)%R; normalize_method := "peak"; bit_depth := 16%Z;
     stereo := false; sample_rate := 44100%Z |}.

Definition never : nat -> bool := fun _ => false.

End Studio.

(** ** Further quantities of the worker

    The shape of a buffer, the paths an iteration writes to, and the
    number of iterations a run makes. *)

(** [audio.shape]: the number of frames of each channel. *)
Definition shape (audio : ndarray) : list nat := map (@length npfloat) (channels audio).

Section Paths.
Context {os_path : OsPath}.

(** [output_file] and [temp_wav] of the [try] body, for an input path. *)
Definition output_file (w : AudioNormalizerWorker) (file_path : string) : string :=
  join (output_folder w)
       (fst (splitext (basename file_path)) +:+ "." +:+ target_format w).

Definition temp_wav (w : AudioNormalizerWorker) (file_path : string) : string :=
  join (output_folder w)
       (fst (splitext (basename file_path)) +:+ "_temp.wav").

End Paths.

(** The format is one the save step writes directly. *)
Definition direct (w : AudioNormalizerWorker) : bool :=
  existsb (String.eqb (target_format w)) direct_formats.

(** The number of iterations the loop runs from index [i] on, out of [n]
    remaining: those before the first stop request. *)
Fixpoint iterations (stop_requested : nat -> bool) (i n : nat) : nat :=
  match n with
  | O => O
  | S n' => if stop_requested i then O
            else S (iterations stop_requested (S i) n')
  end.

(** The method names the dispatch of [run] knows. *)
Definition known_methods : list string := ["peak"; "rms"; "loudness"].

(** ** The main window ([AudioNormalizerApp])

    The window is its state variables, the widgets its slots read and
    write, and a log of what it asked of the operating system and of the
    worker thread. *)

Module Gui.

(** [str.lower] on ASCII text. *)
Definition lower_ascii (c : ascii) : ascii :=
  let n := nat_of_ascii c in
  if (65 <=? n)%nat && (n <=? 90)%nat then ascii_of_nat (n + 32) else c.

Fixpoint lower (s : string) : string :=
  match s with
  | EmptyString => EmptyString
  | String c rest => String (lower_ascii c) (lower rest)
  end.

Definition digit (c : ascii) : option Z :=
  let n := nat_of_ascii c in
  if (48 <=? n)%nat && (n <=? 57)%nat then Some (Z.of_nat (n - 48)) else None.

Fixpoint digits (acc : Z) (s : string) : option Z :=
  match s with
  | EmptyString => Some acc
  | String c rest =>
      match digit c with
      | Some d => digits (10 * acc + d) rest
      | None => None
      end
  end.

Definition ValueError_int (text : string) : exn :=
  Exception ("invalid literal for int() with base 10: '" +:+ text +:+ "'").

(** [int(text)] on a text of decimal digits. *)
Definition int (text : string) : exn + Z :=
  match text with
  | EmptyString => inl (ValueError_int text)
  | _ => match digits 0 text with
         | Some z => inr z
         | None => inl (ValueError_int text)
         end
  end.

(** [str(n)] *)
Definition str_nat (n : nat) : string :=
  DecimalString.NilZero.string_of_uint (Nat.to_uint n).

(** The items of the combo boxes, as [init_ui] adds them. *)
Definition method_items : list string := ["RMS"; "Peak"; "Loudness"].
Definition format_items : list string := ["wav"; "mp3"; "flac"; "ogg"].
Definition bit_items : list string := ["16"; "24"; "32"].
Definition sample_items : list string := ["44100"; "48000"; "96000"].

(** [combo.currentText()]: the item at the current index, the empty text
    when there is none. *)
Definition currentText (items : list string) (index : nat) : string :=
  nth index items EmptyString.

(** The glob patterns of [select_folder], in its order. *)
Definition patterns : list string :=
  ["*.wav"; "*.mp3"; "*.ogg"; "*.flac"; "*.aiff"; "*.aif"].

Inductive effect : Type :=
| makedirs (path : string)
| start (w : AudioNormalizerWorker)
| startfile (path : string).

(** The option widgets: current indices of the combo boxes, the value of
    the level spin box, the state of the check box. *)
Record settings : Type := Settings {
  method_combo : nat;
  level_spin : R;
  format_combo : nat;
  bit_combo : nat;
  sample_combo : nat;
  stereo_check : bool
}.

Record window : Type := Window {
  selected_folder : option string;
  audio_files : list string;
  worker : option AudioNormalizerWorker;
  options : settings;
  folder_label : string;
  status_label : string;
  progress_bar : Z;
  folder_button : bool;
  process_button : bool;
  cancel_button : bool;
  effects : list effect
}.

(** The window after [__init__]. *)
Definition init_ui : window :=
  {| selected_folder := None; audio_files := []; worker := None;
     options := {| method_combo := 0; level_spin := (-5)%R; format_combo := 0;
                   bit_combo := 0; sample_combo := 0; stereo_check := true |};
     folder_label := "No folder selected"; status_label := "Ready";
     progress_bar := 0; folder_button := true; process_button := false;
     cancel_button := false; effects := [] |}.

(** [QProgressBar.setValue] with the range 0..100 that [init_ui] sets: a
    value outside the range has no effect. *)
Definition setValue (value : Z) (win : window) : window :=
  if ((0 <=? value) && (value <=? 100))%Z then
    {| selected_folder := selected_folder win; audio_files := audio_files win;
       worker := worker win; options := options win;
       folder_label := folder_label win; status_label := status_label win;
       progress_bar := value; folder_button := folder_button win;
       process_button := process_button win; cancel_button := cancel_button win;
       effects := effects win |}
  else win.

Definition setStatus (text : string) (win : window) : window :=
  {| selected_folder := selected_folder win; audio_files := audio_files win;
     worker := worker win; options := options win;
     folder_label := folder_label win; status_label := text;
     progress_bar := progress_bar win; folder_button := folder_button win;
     process_button := process_button win; cancel_button := cancel_button win;
     effects := effects win |}.

(** [setEnabled] on the folder, process and cancel buttons. *)
Definition setButtons (folder process cancel : bool) (win : window) : window :=
  {| selected_folder := selected_folder win; audio_files := audio_files win;
     worker := worker win; options := options win;
     folder_label := folder_label win; status_label := status_label win;
     progress_bar := progress_bar win; folder_button := folder;
     process_button := process; cancel_button := cancel;
     effects := effects win |}.

Definition setProcessButton (enabled : bool) (win : window) : window :=
  setButtons (folder_button win) enabled (cancel_button win) win.

Definition log (e : effect) (win : window) : window :=
  {| selected_folder := selected_folder win; audio_files := audio_files win;
     worker := worker win; options := options win;
     folder_label := folder_label win; status_label := status_label win;
     progress_bar := progress_bar win; folder_button := folder_button win;
     process_button := process_button win; cancel_button := cancel_button win;
     effects := effects win ++ [e] |}.

Definition setWorker (w : AudioNormalizerWorker) (win : window) : window :=
  {| selected_folder := selected_folder win; audio_files := audio_files win;
     worker := Some w; options := options win;
     folder_label := folder_label win; status_label := status_label win;
     progress_bar := progress_bar win; folder_button := folder_button win;
     process_button := process_button win; cancel_button := cancel_button win;
     effects := effects win |}.

Definition setFolder (folder : string) (files : list string) (win : window) : window :=
  {| selected_folder := Some folder; audio_files := files;
     worker := worker win; options := options win;
     folder_label := folder; status_label := status_label win;
     progress_bar := progress_bar win; folder_button := folder_button win;
     process_button := process_button win; cancel_button := cancel_button win;
     effects := effects win |}.

Definition TypeError_join : exn :=
  Exception "expected str, bytes or os.PathLike object, not NoneType".

Section Slots.

Context {os_path : OsPath}.

(** [os.makedirs(path, exist_ok=True)] and [os.startfile(path)]: [None]
    when the call returns, the exception it raises otherwise. *)
Variable os_makedirs : string -> option exn.
Variable os_startfile : string -> option exn.

(** [select_folder], for the folder the dialog returns (empty when it is
    dismissed) and the files [Path(folder).glob] yields per pattern. *)
Definition select_folder (folder : string) (glob : string -> list string)
    (win : window) : window :=
  if String.eqb folder "" then win
  else
    let files := concat (map glob patterns) in
    let win := setFolder folder files win in
    match files with
    | _ :: _ =>
        setProcessButton true
          (setStatus ("Found " +:+ str_nat (length files) +:+ " audio files") win)
    | [] =>
        setProcessButton false
          (setStatus "No audio files found in the selected folder" win)
    end.

(** [process_files]: the window after the slot, and the exception that
    ended it if one did. *)
Definition process_files (win : window) : window * option exn :=
  match audio_files win with
  | [] => (win, None)
  | _ :: _ =>
      match selected_folder win with
      | None => (win, Some TypeError_join)
      | Some folder =>
          (* Create output folder *)
          let output_folder := join folder "Normalized Audio" in
          match os_makedirs output_folder with
          | Some e => (win, Some e)
          | None =>
              let win := log (makedirs output_folder) win in
              (* Get settings *)
              let o := options win in
              let target_format := currentText format_items (format_combo o) in
              let target_level := level_spin o in
              let normalize_method := lower (currentText method_items (method_combo o)) in
              match int (currentText bit_items (bit_combo o)) with
              | inl e => (win, Some e)
              | inr bit_depth =>
                  let stereo := stereo_check o in
                  match int (currentText sample_items (sample_combo o)) with
                  | inl e => (win, Some e)
                  | inr sample_rate =>
                      (* Disable UI elements *)
                      let win := setButtons false false true win in
                      (* Start worker thread *)
                      let w := Worker (audio_files win) output_folder target_format
                                 target_level normalize_method bit_depth stereo
                                 sample_rate in
                      (log (start w) (setWorker w win), None)
                  end
              end
          end
      end
  end.

Definition update_progress (value : Z) (win : window) : window :=
  setValue value win.

Definition update_status (filename : string) (win : window) : window :=
  setStatus ("Processing: " +:+ filename) win.

Definition processing_finished (win : window) : window * option exn :=
  let win := setValue 100 win in
  let win := setStatus "Processing completed" win in
  (* Re-enable UI elements *)
  let win := setButtons true true false win in
  (* Open the output folder *)
  match selected_folder win with
  | None => (win, Some TypeError_join)
  | Some folder =>
      let output_folder := join folder "Normalized Audio" in
      match os_startfile output_folder with
      | Some e => (win, Some e)
      | None => (log (startfile output_folder) win, None)
      end
  end.


(** The slot each signal of the worker is connected to. *)
Definition slot (sig : signal) (win : window) : window * option exn :=
  match sig with
  | progress_updated value => (update_progress value win, None)
  | file_processed label => (update_status label win, None)
  | finished => processing_finished win
  end.

(** The signals of a stream delivered in order, up to the first slot that
    raises. *)
Fixpoint deliver (sigs : list signal) (win : window) : window * option exn :=
  match sigs with
  | [] => (win, None)
  | sig :: rest =>
      match slot sig win with
      | (win', None) => deliver rest win'
      | (win', Some e) => (win', Some e)
      end
  end.

End Slots.

(** The combo boxes point at one of their items. *)
Definition valid (o : settings) : Prop :=
  method_combo o < length method_items
  /\ format_combo o < length format_items
  /\ bit_combo o < length bit_items
  /\ sample_combo o < length sample_items.

(** What the slots of the worker's per-file signals leave alone. *)
Definition same_session (win win' : window) : Prop :=
  selected_folder win' = selected_folder win
  /\ audio_files win' = audio_files win
  /\ worker win' = worker win
  /\ options win' = options win
  /\ folder_label win' = folder_label win
  /\ folder_button win' = folder_button win
  /\ process_button win' = process_button win
  /\ cancel_button win' = cancel_button win
  /\ effects win' = effects win.


End Gui.

(** A desk with one folder of music, on which every call succeeds. *)

Module Desk.

(** A job with a method name the dispatch does not know. *)
Definition odd_job : AudioNormalizerWorker :=
  {| input_files := ["/in/a.wav"; "/in/b.wav"]; output_folder := "/out";
     target_format := "wav"; target_level := (-5)%R; normalize_method := "lufs";
     bit_depth := 16%Z; stereo := false; sample_rate := 44100%Z |}.

(** A folder holding one wav file. *)
Definition glob (pattern : string) : list string :=
  if String.eqb pattern "*.wav" then ["/music/a.wav"] else [].

Definition os_makedirs (path : string) : option exn := None.
Definition os_startfile (path : string) : option exn := None.

(** The window after the folder was chosen, and after the click on
    "Process Files". *)
Definition chosen {os_path : OsPath} : Gui.window :=
  Gui.select_folder "/music" glob Gui.init_ui.

Definition started {os_path : OsPath} : Gui.window :=
  fst (Gui.process_files os_makedirs chosen).

End Desk.

(** ** Auxiliary definitions of the proofs *)

(** The largest absolute value, from [a] on, of a list of real samples. *)
Definition Rpeak (a : R) (rs : list R) : R := fold_left Rmax (map Rabs rs) a.

(** A buffer (or channel) of zeros. *)
Definition silent (xs : list npfloat) : Prop := Forall (fun x => x = Fin 0) xs.

(** The unit roundoff of binary64, [2^-53]. *)
Definition unit_roundoff : Q := 1 # 9007199254740992.

(** The exact percentage [100*(i+1)/total_files] of file [i], rounded to
    the nearest integer (halves up) ... *)
Definition rounded_percent (i total_files : nat) : Z :=
  (2 * (100 * (Z.of_nat i + 1)) + Z.of_nat total_files) / (2 * Z.of_nat total_files).

(** ... and rounded down. *)
Definition floored_percent (i total_files : nat) : Z :=
  (100 * (Z.of_nat i + 1)) / Z.of_nat total_files.

(** [int(x)] on a hardware double. *)
Definition float_int (x : PrimFloat.float) : Z :=
  match FloatOps.Prim2SF x with
  | SpecFloat.S754_finite s m e =>
      let v := if (0 <=? e)%Z then (Z.pos m * 2 ^ e)%Z
               else (Z.pos m / 2 ^ (- e))%Z in
      if s then (- v)%Z else v
  | _ => 0%Z
  end.

Definition float_of_Z (z : Z) : PrimFloat.float :=
  PrimFloat.of_uint63 (Uint63.of_Z z).

(** [int((i + 1) / total_files * 100)] on hardware doubles. *)
Definition hardware_progress (i total_files : nat) : Z :=
  float_int
    (PrimFloat.mul
       (PrimFloat.div (float_of_Z (Z.of_nat i + 1))
                      (float_of_Z (Z.of_nat total_files)))
       (float_of_Z 100)).

(** Every index of a batch of [total_files] files gets the hardware value. *)
Definition agrees_with_hardware (total_files : nat) : bool :=
  forallb (fun i => match progress_value i total_files with
                    | inr p => Z.eqb p (hardware_progress i total_files)
                    | inl _ => false
                    end) (seq 0 total_files).

(** A machine on which the resampler, the writer and the transcoder never
    fail. *)
Definition cooperative (ext : Externals) : Prop :=
  (forall y orig_sr target_sr, exists r, librosa_resample ext y orig_sr target_sr = inr r)
  /\ (forall path data rate subtype, sf_write ext path data rate subtype = None)
  /\ (forall path, AudioSegment_from_wav ext path = None)
  /\ (forall path bitrate, AudioSegment_export ext path bitrate = None).

(** [s] holds no character that [p] accepts. *)
Fixpoint free_of (p : ascii -> bool) (s : string) : bool :=
  match s with
  | EmptyString => true
  | String c rest => negb (p c) && free_of p rest
  end.

(** A file name component: not empty, no separator, no dot. *)
Definition plain (s : string) : Prop :=
  s <> EmptyString
  /\ free_of posixpath.is_sep s = true
  /\ free_of posixpath.is_dot s = true.

(** * Properties *)

(** ** Normalisation *)

Module RoundFacts.

Local Open Scope R_scope.

Lemma bpow_pos k : 0 < bpow k.
Proof. apply powerRZ_lt. lra. Qed.

Lemma bpow_add a b : bpow (a + b) = bpow a * bpow b.
Proof. apply powerRZ_add. lra. Qed.

Lemma bpow_0 : bpow 0 = 1.
Proof. reflexivity. Qed.

Lemma bpow_opp a : bpow (- a) = / bpow a.
Proof. apply powerRZ_neg'. Qed.

Lemma bpow_sub a b : bpow (a - b) = bpow a / bpow b.
Proof. unfold Z.sub, Rdiv. now rewrite bpow_add, bpow_opp. Qed.

Lemma bpow_IZR n : (0 <= n)%Z -> bpow n = IZR (2 ^ n).
Proof.
  intros Hn. unfold bpow.
  rewrite <- (Z2Nat.id n Hn) at 2. rewrite <- pow_IZR.
  rewrite <- (Z2Nat.id n Hn) at 1. now rewrite <- pow_powerRZ.
Qed.

Lemma bpow_le_1 n : (n <= 0)%Z -> bpow n <= 1.
Proof.
  intros Hn. replace n with (- (- n))%Z by lia. rewrite bpow_opp.
  rewrite bpow_IZR by lia.
  assert (H : (1 <= 2 ^ (- n))%Z) by (apply Z.pow_le_mono_r with (a := 2%Z) (b := 0%Z); lia).
  apply IZR_le in H.
  rewrite <- Rinv_1. apply Rinv_le_contravar; lra.
Qed.

Lemma bpow_lt a b : (a < b)%Z -> bpow a < bpow b.
Proof.
  intros H. replace b with (a + (b - a))%Z by lia. rewrite bpow_add.
  rewrite (bpow_IZR (b - a)) by lia.
  assert (H2 : (2 <= 2 ^ (b - a))%Z).
  { change 2%Z with (2 ^ 1)%Z at 1. apply Z.pow_le_mono_r; lia. }
  apply IZR_le in H2. pose proof (bpow_pos a). nra.
Qed.

Lemma bpow_le a b : (a <= b)%Z -> bpow a <= bpow b.
Proof.
  intros H. destruct (Z.eq_dec a b) as [-> | Hne]; [lra |].
  left. apply bpow_lt. lia.
Qed.

Lemma ln_2_pos : 0 < ln 2.
Proof. rewrite <- ln_1. apply ln_increasing; lra. Qed.

Lemma Int_part_IZR z : Int_part (IZR z) = z.
Proof. symmetry. apply Int_part_spec. split; lra. Qed.

Lemma ilog2_bpow k : ilog2 (bpow k) = k.
Proof.
  unfold ilog2, bpow. rewrite powerRZ_Rpower by lra. rewrite ln_Rpower.
  pose proof ln_2_pos.
  replace (IZR k * ln 2 / ln 2) with (IZR k) by (field; lra).
  apply Int_part_IZR.
Qed.

Lemma rne_IZR n : rne (IZR n) = n.
Proof.
  unfold rne. rewrite Int_part_IZR.
  destruct (Rlt_dec (IZR n - IZR n) (1 / 2)); [reflexivity | lra].
Qed.

(** The nearest integer is within a half. *)
Lemma rne_error x : Rabs (IZR (rne x) - x) <= 1 / 2.
Proof.
  unfold rne. destruct (base_Int_part x) as [Hlo Hhi].
  set (f := Int_part x) in *.
  destruct (Rlt_dec (x - IZR f) (1 / 2)).
  - apply Rabs_le. lra.
  - assert (H1 : IZR (f + 1) = IZR f + 1) by apply plus_IZR.
    destruct (Rlt_dec (1 / 2) (x - IZR f)).
    + rewrite H1. apply Rabs_le. lra.
    + destruct (Z.even f); [| rewrite H1]; apply Rabs_le; lra.
Qed.

(** Up to a half, ties included, the nearest even integer is 0. *)
Lemma rne_small x : 0 <= x <= 1 / 2 -> rne x = 0%Z.
Proof.
  intros Hx. unfold rne.
  assert (Hf : Int_part x = 0%Z) by (symmetry; apply Int_part_spec; split; lra).
  rewrite Hf.
  destruct (Rlt_dec (x - 0) (1 / 2)); [reflexivity |].
  destruct (Rlt_dec (1 / 2) (x - 0)); [lra | reflexivity].
Qed.

(** Rounding a power of two: it overflows from [2^emax] on, is itself when
    it is a multiple of the quantum of its binade, and is 0 below the
    smallest subnormal. *)
Lemma round_pos_bpow fmt k :
  (1 <= prec fmt)%Z -> (1 <= emax fmt)%Z ->
  let c := (Z.max k (2 - emax fmt) - (prec fmt - 1))%Z in
  round_pos fmt (bpow k)
  = if (emax fmt <=? k)%Z then PInf
    else if (c <=? k)%Z then Fin (bpow k)
    else Fin 0.
Proof.
  intros Hprec Hemax. cbv zeta. unfold round_pos. rewrite ilog2_bpow.
  set (c := (Z.max k (2 - emax fmt) - (prec fmt - 1))%Z).
  rewrite <- bpow_sub.
  destruct (Z.leb_spec c k) as [Hc | Hc].
  - rewrite (bpow_IZR (k - c)) by lia. rewrite rne_IZR.
    rewrite <- bpow_IZR by lia. rewrite <- bpow_add.
    replace (k - c + c)%Z with k by lia.
    destruct (Z.leb_spec (emax fmt) k) as [He | He].
    + destruct (Rle_dec (bpow (emax fmt)) (bpow k)) as [_ | Hn]; [reflexivity |].
      exfalso. apply Hn. now apply bpow_le.
    + destruct (Rle_dec (bpow (emax fmt)) (bpow k)) as [Hle | _]; [| reflexivity].
      exfalso. pose proof (bpow_lt k (emax fmt) He). lra.
  - rewrite rne_small.
    + rewrite Rmult_0_l.
      destruct (Rle_dec (bpow (emax fmt)) 0) as [Hle | _].
      * exfalso. pose proof (bpow_pos (emax fmt)). lra.
      * destruct (Z.leb_spec (emax fmt) k); [subst c; lia | reflexivity].
    + split; [left; apply bpow_pos |].
      replace (1 / 2) with (bpow (-1)) by (unfold bpow; simpl; lra).
      apply bpow_le. lia.
Qed.

Lemma round_0 fmt : round fmt 0 = Fin 0.
Proof.
  unfold round. destruct (Rlt_dec 0 0); [lra |]. destruct (Rlt_dec 0 0); [lra | reflexivity].
Qed.

Lemma round_bpow fmt k : round fmt (bpow k) = round_pos fmt (bpow k).
Proof.
  unfold round. pose proof (bpow_pos k).
  destruct (Rlt_dec 0 (bpow k)); [reflexivity | contradiction].
Qed.

(** A rounded number is a number or an infinity. *)
Lemma round_not_NaN fmt x : round fmt x <> NaN.
Proof.
  unfold round, round_pos.
  destruct (Rlt_dec 0 x).
  - destruct (Rle_dec _ _); discriminate.
  - destruct (Rlt_dec x 0); [| discriminate].
    destruct (Rle_dec _ _); discriminate.
Qed.

(** The powers of two of float32 and of the doubles. *)
Lemma float32_bpow k :
  (-149 <= k < 128)%Z -> float32 (bpow k) = Fin (bpow k).
Proof.
  intros Hk. unfold float32. rewrite round_bpow, round_pos_bpow by (cbn; lia).
  cbn [emax prec binary32].
  destruct (Z.leb_spec 128 k); [lia |].
  destruct (Z.leb_spec (Z.max k (2 - 128) - (24 - 1)) k); [reflexivity | lia].
Qed.

Lemma float32_overflow k : (128 <= k)%Z -> float32 (bpow k) = PInf.
Proof.
  intros Hk. unfold float32. rewrite round_bpow, round_pos_bpow by (cbn; lia).
  cbn [emax prec binary32].
  destruct (Z.leb_spec 128 k); [reflexivity | lia].
Qed.

Lemma float32_underflow k : (k < -149)%Z -> float32 (bpow k) = Fin 0.
Proof.
  intros Hk. unfold float32. rewrite round_bpow, round_pos_bpow by (cbn; lia).
  cbn [emax prec binary32].
  destruct (Z.leb_spec 128 k); [lia |].
  destruct (Z.leb_spec (Z.max k (2 - 128) - (24 - 1)) k); [lia | reflexivity].
Qed.

Lemma float64_bpow k :
  (-1074 <= k < 1024)%Z -> float64 (bpow k) = Fin (bpow k).
Proof.
  intros Hk. unfold float64. rewrite round_bpow, round_pos_bpow by (cbn; lia).
  cbn [emax prec binary64].
  destruct (Z.leb_spec 1024 k); [lia |].
  destruct (Z.leb_spec (Z.max k (2 - 1024) - (53 - 1)) k); [reflexivity | lia].
Qed.

Lemma float32_0 : float32 0 = Fin 0.
Proof. apply round_0. Qed.

Lemma float32_1 : float32 1 = Fin 1.
Proof. rewrite <- bpow_0. apply float32_bpow. lia. Qed.

End RoundFacts.

Section Numerics.

Import RoundFacts.

Local Open Scope R_scope.

Lemma Rpos_b_true r : 0 < r -> Rpos_b r = true.
Proof. intros H. unfold Rpos_b. destruct (Rlt_dec 0 r); [reflexivity | contradiction]. Qed.

Lemma Rpos_b_false r : ~ 0 < r -> Rpos_b r = false.
Proof. intros H. unfold Rpos_b. destruct (Rlt_dec 0 r); [contradiction | reflexivity]. Qed.

Lemma Rzero_b_true r : r = 0 -> Rzero_b r = true.
Proof. intros H. unfold Rzero_b. destruct (Req_dec_T r 0); [reflexivity | contradiction]. Qed.

Lemma Rzero_b_false r : r <> 0 -> Rzero_b r = false.
Proof. intros H. unfold Rzero_b. destruct (Req_dec_T r 0); [contradiction | reflexivity]. Qed.

Lemma length_square xs : length (square xs) = length xs.
Proof. apply length_map. Qed.

(** *** The operations on zeros, powers of two and infinities *)

Lemma fmul_bpow a b : fmul (Fin (bpow a)) (Fin (bpow b)) = float32 (bpow (a + b)).
Proof. cbn [fmul]. now rewrite bpow_add. Qed.

Lemma fmul_0_l b : fmul (Fin 0) (Fin b) = Fin 0.
Proof. cbn [fmul]. rewrite Rmult_0_l. apply float32_0. Qed.

Lemma fmul_1_r_bpow k : (-149 <= k < 128)%Z -> fmul (Fin (bpow k)) (Fin 1) = Fin (bpow k).
Proof. intros Hk. cbn [fmul]. rewrite Rmult_1_r. now apply float32_bpow. Qed.

Lemma fadd_0_l_bpow k : (-149 <= k < 128)%Z -> fadd (Fin 0) (Fin (bpow k)) = Fin (bpow k).
Proof. intros Hk. cbn [fadd]. rewrite Rplus_0_l. now apply float32_bpow. Qed.

Lemma fadd_0_0 : fadd (Fin 0) (Fin 0) = Fin 0.
Proof. cbn [fadd]. rewrite Rplus_0_l. apply float32_0. Qed.

Lemma fdiv_bpow a b : fdiv (Fin (bpow a)) (Fin (bpow b)) = float32 (bpow (a - b)).
Proof.
  unfold fdiv, div. pose proof (bpow_pos b).
  rewrite Rzero_b_false by lra. now rewrite bpow_sub.
Qed.

Lemma sqrt_bpow k : sqrt (bpow (k + k)) = bpow k.
Proof. rewrite bpow_add. apply sqrt_square. left. apply bpow_pos. Qed.

Lemma gt0_bpow k : gt0 (Fin (bpow k)) = true.
Proof. apply Rpos_b_true, bpow_pos. Qed.

(** The mean of one sample. *)
Lemma np_mean_single_bpow k :
  (-149 <= k < 128)%Z -> np_mean [Fin (bpow k)] = Fin (bpow k).
Proof.
  intros Hk. unfold np_mean, np_sum. cbn [fold_left length].
  rewrite fadd_0_l_bpow by assumption.
  unfold div. replace (INR 1) with 1 by reflexivity.
  rewrite Rzero_b_false by lra. rewrite Rdiv_1_r.
  fold (float64 (bpow k)). rewrite float64_bpow by lia.
  cbn [as_float32]. now apply float32_bpow.
Qed.

Lemma np_mean_single_0 : np_mean [Fin 0] = Fin 0.
Proof.
  unfold np_mean, np_sum. cbn [fold_left length]. rewrite fadd_0_0.
  unfold div. replace (INR 1) with 1 by reflexivity.
  rewrite Rzero_b_false by lra. rewrite Rdiv_1_r, round_0.
  cbn [as_float32]. apply float32_0.
Qed.

(** The RMS of one sample [2^k]: the sample itself, unless its square
    underflows, when it is 0. *)
Lemma rms_single_bpow k :
  (-149 <= k + k)%Z -> (k + k < 128)%Z -> rms [Fin (bpow k)] = Fin (bpow k).
Proof.
  intros Hlo Hhi. unfold rms, square. cbn [map].
  rewrite fmul_bpow, float32_bpow by lia.
  rewrite np_mean_single_bpow by lia. cbn [np_sqrt].
  pose proof (bpow_pos (k + k)).
  destruct (Rlt_dec (bpow (k + k)) 0); [lra |].
  rewrite sqrt_bpow. apply float32_bpow. lia.
Qed.

Lemma rms_single_underflow k : (k + k < -149)%Z -> rms [Fin (bpow k)] = Fin 0.
Proof.
  intros Hk. unfold rms, square. cbn [map].
  rewrite fmul_bpow, float32_underflow by lia.
  rewrite np_mean_single_0. cbn [np_sqrt].
  destruct (Rlt_dec 0 0); [lra |]. rewrite sqrt_0. apply float32_0.
Qed.

(** At 0 dB the target amplitude is 1. *)
Lemma target_amplitude_0 : target_amplitude 0 = Fin 1.
Proof.
  unfold target_amplitude. replace (0 / 20) with 0 by lra.
  unfold float64 at 1. rewrite round_0. rewrite Rpower_O by lra.
  rewrite <- bpow_0. apply float64_bpow. lia.
Qed.

(** *** Peak *)

Lemma fold_fmax_fin rs a :
  fold_left fmax (np_abs (map Fin rs)) (Fin a) = Fin (Rpeak a rs).
Proof.
  revert a. induction rs as [| r rs IH]; intros a; [reflexivity |].
  simpl. apply IH.
Qed.

(** *** Silence *)

Lemma silent_zeros xs : silent xs -> xs = map Fin (repeat 0 (length xs)).
Proof.
  induction 1 as [| x xs -> _ IH]; [reflexivity |]. simpl. now f_equal.
Qed.

Lemma Rpeak_zeros n : Rpeak 0 (repeat 0 n) = 0.
Proof.
  induction n as [| n IH]; [reflexivity |].
  unfold Rpeak in *. simpl. rewrite Rabs_R0, Rmax_left by lra. exact IH.
Qed.

Lemma square_zeros n : square (map Fin (repeat 0 n)) = map Fin (repeat 0 n).
Proof.
  induction n as [| n IH]; [reflexivity |].
  unfold square in *. cbn [repeat map]. now rewrite IH, fmul_0_l.
Qed.

Lemma np_sum_zeros n : np_sum (map Fin (repeat 0 n)) = Fin 0.
Proof.
  unfold np_sum. induction n as [| n IH]; [reflexivity |].
  cbn [repeat map fold_left]. now rewrite fadd_0_0.
Qed.

Lemma np_mean_zeros n : np_mean (map Fin (repeat 0 (S n))) = Fin 0.
Proof.
  unfold np_mean. rewrite np_sum_zeros, length_map, repeat_length.
  assert (Hn : 0 < INR (S n)) by (apply lt_0_INR; lia).
  unfold div. rewrite Rzero_b_false by lra.
  unfold Rdiv. rewrite Rmult_0_l, round_0. cbn [as_float32]. apply float32_0.
Qed.

Lemma rms_zeros n : rms (map Fin (repeat 0 (S n))) = Fin 0.
Proof.
  unfold rms. rewrite square_zeros, np_mean_zeros. cbn [np_sqrt].
  destruct (Rlt_dec 0 0); [lra |]. rewrite sqrt_0. apply float32_0.
Qed.

Lemma scale_one_zeros n :
  scale (Fin 1) (map Fin (repeat 0 n)) = map Fin (repeat 0 n).
Proof.
  induction n as [| n IH]; [reflexivity |].
  unfold scale in *. cbn [repeat map]. now rewrite IH, fmul_0_l.
Qed.

Lemma rms_silent_gain xs T : silent xs -> rms_gain T (rms xs) = Fin 1.
Proof.
  intros H. rewrite (silent_zeros xs H). unfold rms_gain.
  destruct (length xs) as [| n] eqn:Hn.
  - unfold rms, np_mean, np_sum, div. cbn [repeat map square fold_left length INR].
    rewrite Rzero_b_true by reflexivity. reflexivity.
  - rewrite rms_zeros. cbn [gt0]. rewrite Rpos_b_false by lra. reflexivity.
Qed.

(** Peak normalisation returns a silent, non-empty buffer as it is. *)
Lemma peak_silent_unchanged L audio :
  silent (flat audio) -> flat audio <> [] ->
  normalize "peak" L audio = inr (Some audio).
Proof.
  intros Hs Hne. unfold normalize. simpl String.eqb. cbv iota.
  rewrite (silent_zeros _ Hs) in *.
  destruct (length (flat audio)) as [| n]; [contradiction |].
  cbn [repeat map np_abs np_abs1 np_max].
  rewrite fold_fmax_fin, Rabs_R0, Rpeak_zeros. cbn [gt0].
  rewrite Rpos_b_false by lra. reflexivity.
Qed.

(** RMS normalisation returns a silent mono or stereo buffer as it is. *)
Lemma rms_silent_unchanged L audio :
  silent (flat audio) -> (length (channels audio) <= 2)%nat ->
  normalize "rms" L audio = inr (Some audio).
Proof.
  intros Hs Hch. unfold normalize. simpl String.eqb. cbv iota.
  destruct audio as [xs | c0 c1 more]; unfold flat in Hs; simpl in Hs.
  - rewrite app_nil_r in Hs. cbv zeta. cbn [mul_scalar].
    rewrite rms_silent_gain by assumption.
    rewrite (silent_zeros _ Hs). now rewrite scale_one_zeros.
  - destruct more as [| c more]; [| simpl in Hch; lia].
    rewrite app_nil_r in Hs. apply Forall_app in Hs as [H0 H1].
    cbv zeta. rewrite !rms_silent_gain by assumption.
    rewrite (silent_zeros _ H0), (silent_zeros _ H1).
    now rewrite !scale_one_zeros.
Qed.

(** [np.max] raises on a buffer without frames. *)
Example peak_empty_raises L :
  normalize "peak" L (Arr1 []) = inl ValueError_empty_max.
Proof. reflexivity. Qed.

Lemma scale_PInf_zeros n :
  scale PInf (map Fin (repeat 0 n)) = repeat NaN n.
Proof.
  induction n as [| n IH]; [reflexivity |].
  cbn [repeat map scale]. fold (scale PInf (map Fin (repeat 0 n))).
  rewrite IH. cbn [fmul]. unfold scale_inf. now rewrite Rzero_b_true.
Qed.

Lemma scale_NaN_zeros n :
  scale NaN (map Fin (repeat 0 n)) = repeat NaN n.
Proof.
  induction n as [| n IH]; [reflexivity |].
  cbn [repeat map scale]. fold (scale NaN (map Fin (repeat 0 n))).
  now rewrite IH.
Qed.

(** Loudness normalisation has no guard for silence: whatever the level,
    a silent mono buffer with at least one frame comes back as NaN. *)
Lemma loudness_silent_mono L n :
  normalize "loudness" L (Arr1 (map Fin (repeat 0 (S n))))
  = inr (Some (Arr1 (repeat NaN (S n)))).
Proof.
  unfold normalize. simpl String.eqb. cbv iota zeta.
  fold (rms (map Fin (repeat 0 (S n)))). rewrite rms_zeros.
  assert (Hlog : np_log10 (Fin 0) = NInf).
  { cbn [np_log10]. now rewrite Rzero_b_true. }
  rewrite Hlog.
  assert (Hmul : fmul (Fin 20) NInf = NInf).
  { cbn [fmul]. unfold scale_inf. rewrite Rzero_b_false, Rpos_b_true by lra. reflexivity. }
  rewrite Hmul. cbn [fsub as_float32].
  assert (Hdiv : fdiv PInf (Fin 20) = PInf).
  { unfold fdiv, div. destruct (Rlt_dec 20 0); [lra | reflexivity]. }
  destruct (float32 L); cbn [fsub]; rewrite ?Hdiv; cbn [fdiv div pow10 mul_scalar];
    now rewrite ?scale_PInf_zeros, ?scale_NaN_zeros.
Qed.

(** C1, on the code.  Loudness normalisation of one silent mono frame at
    -5 dB yields a NaN sample: the measured loudness is log10 0 = -inf, the
    gain 10 ** inf = inf, and 0 * inf is invalid. *)
Theorem loudness_silent_yields_nan :
  normalize "loudness" (-5) (Arr1 [Fin 0]) = inr (Some (Arr1 [NaN])).
Proof. exact (loudness_silent_mono (-5) 0). Qed.

(** C5, on the code.  A buffer whose peak is the subnormal float32 value
    [2^-140], normalised to 0 dB: the peak is above zero, so the guard lets
    the division through, its quotient [2^140] overflows float32, and the
    samples come back as an infinity and, where the sample was 0, as NaN,
    not scaled to the peak 1. *)
Theorem peak_of_subnormal_buffer_overflows :
  normalize "peak" 0 (Arr1 [Fin (- bpow (-140)); Fin 0])
  = inr (Some (Arr1 [NInf; NaN])).
Proof.
  unfold normalize. simpl String.eqb. cbv iota.
  cbn [flat channels concat app np_abs map np_abs1 np_max fold_left fmax].
  pose proof (bpow_pos (-140)) as Hb.
  rewrite Rabs_Ropp, Rabs_R0, (Rabs_right (bpow (-140))) by lra.
  rewrite Rmax_left by lra. rewrite gt0_bpow.
  rewrite target_amplitude_0. cbn [as_float32]. rewrite float32_1.
  rewrite <- bpow_0, fdiv_bpow, float32_overflow by lia.
  cbn [mul_scalar scale map fmul]. unfold scale_inf.
  rewrite (Rzero_b_false (- bpow (-140))), (Rpos_b_false (- bpow (-140))) by lra.
  rewrite Rzero_b_true by reflexivity. reflexivity.
Qed.

(** C6, on the code.  A stereo buffer normalised to 0 dB whose left
    channel holds the sample [2^-100] and whose right channel holds 1/2.
    The square of the left sample underflows float32, so the measured RMS
    of the left channel is 0 although the channel is not silent; the guard
    gives it gain 1 and it comes back as it was.  The right channel,
    measured at 1/2, is scaled by 2 and reaches the target 1. *)
Theorem rms_of_tiny_channel_underflows :
  rms [Fin (bpow (-100))] = Fin 0
  /\ rms [Fin (bpow (-1))] = Fin (bpow (-1))
  /\ normalize "rms" 0 (Arr2 [Fin (bpow (-100))] [Fin (bpow (-1))] [])
     = inr (Some (Arr2 [Fin (bpow (-100))] [Fin 1] [])).
Proof.
  assert (Hl : rms [Fin (bpow (-100))] = Fin 0)
    by (apply rms_single_underflow; lia).
  assert (Hr : rms [Fin (bpow (-1))] = Fin (bpow (-1)))
    by (apply rms_single_bpow; lia).
  split; [exact Hl |]. split; [exact Hr |].
  unfold normalize. simpl String.eqb. cbv iota zeta.
  rewrite Hl, Hr, target_amplitude_0. unfold rms_gain.
  rewrite gt0_bpow. cbn [gt0 as_float32]. rewrite Rpos_b_false by lra.
  rewrite float32_1. rewrite <- bpow_0 at 2. rewrite fdiv_bpow.
  rewrite float32_bpow by lia.
  cbn [scale map]. rewrite fmul_1_r_bpow by lia.
  rewrite fmul_bpow, float32_bpow by lia. reflexivity.
Qed.

End Numerics.

(** ** The progress arithmetic *)

Module Binary64Facts.
Import Binary64 Lqa.
Local Open Scope Q_scope.

Lemma pow2_pos k : 0 < 2 ^ k.
Proof. apply Qpower_0_lt. reflexivity. Qed.

Lemma pow2_succ k : 2 ^ (k + 1) == 2 * 2 ^ k.
Proof. rewrite Qpower_plus by discriminate. rewrite Qmult_comm. reflexivity. Qed.

Lemma pow2_pred k : 2 ^ (k - 1) == 2 ^ k / 2.
Proof.
  rewrite Qpower_minus by discriminate. reflexivity.
Qed.

Lemma pow2_mono a b : (a <= b)%Z -> 2 ^ a <= 2 ^ b.
Proof. intros H. apply Qpower_le_compat_l; [exact H | discriminate]. Qed.

Lemma pow2_Z k : (0 <= k)%Z -> inject_Z (2 ^ k) == 2 ^ k.
Proof. intros H. apply (Zpower_Qpower 2 k H). Qed.

(** Cancelling a positive factor. *)
Lemma Qmult_lt_cancel (a b c : Q) : 0 < c -> a * c < b * c -> a < b.
Proof. intros Hc H. apply Qmult_lt_r in H; assumption. Qed.

Lemma Qmult_le_cancel (a b c : Q) : 0 < c -> a * c <= b * c -> a <= b.
Proof. intros Hc H. apply Qmult_le_r in H; assumption. Qed.

(** [binade q] is the exponent of the power of two at or below [q]. *)
Lemma binade_spec q : 0 < q -> 2 ^ binade q <= q /\ q < 2 ^ (binade q + 1).
Proof.
  intros Hq. unfold binade.
  set (la := Z.log2 (Qnum q)). set (lb := Z.log2 (Zpos (Qden q))).
  assert (Hn : (0 < Qnum q)%Z).
  { destruct q as [n d]. unfold Qlt in Hq. simpl in *. lia. }
  destruct (Z.log2_spec _ Hn) as [Hn1 Hn2]. fold la in Hn1, Hn2.
  destruct (Z.log2_spec (Zpos (Qden q)) eq_refl) as [Hd1 Hd2]. fold lb in Hd1, Hd2.
  assert (Hla : (0 <= la)%Z) by apply Z.log2_nonneg.
  assert (Hlb : (0 <= lb)%Z) by apply Z.log2_nonneg.
  rewrite Zle_Qle, pow2_Z in Hn1, Hd1 by assumption.
  rewrite Zlt_Qlt, pow2_Z in Hn2, Hd2 by lia.
  unfold Z.succ in Hn2, Hd2. rewrite pow2_succ in Hn2, Hd2.
  assert (Hqd : q * inject_Z (Zpos (Qden q)) == inject_Z (Qnum q)).
  { destruct q as [n d]. simpl. rewrite (Qmake_Qdiv n d). field. discriminate. }
  assert (HD : 2 ^ (la - lb) * 2 ^ lb == 2 ^ la).
  { rewrite <- Qpower_plus by discriminate. now replace (la - lb + lb)%Z with la by lia. }
  pose proof (pow2_pos la) as Hpa. pose proof (pow2_pos lb) as Hpb.
  pose proof (pow2_pos (la - lb)) as Hpd.
  assert (Hup : q < 2 * 2 ^ (la - lb)).
  { apply (Qmult_lt_cancel _ _ (2 ^ lb) Hpb).
    apply Qle_lt_trans with (q * inject_Z (Zpos (Qden q))).
    - apply Qmult_le_l; assumption.
    - rewrite Hqd, <- Qmult_assoc, HD. exact Hn2. }
  assert (Hlow : 2 ^ (la - lb) / 2 < q).
  { apply (Qmult_lt_cancel _ _ (2 * 2 ^ lb)); [lra |].
    apply Qle_lt_trans with (inject_Z (Qnum q)).
    - assert (E : 2 ^ (la - lb) / 2 * (2 * 2 ^ lb) == 2 ^ (la - lb) * 2 ^ lb)
        by field.
      rewrite E, HD. exact Hn1.
    - rewrite <- Hqd. apply Qmult_lt_l; assumption. }
  destruct (Qle_bool (2 ^ (la - lb)) q) eqn:Hb.
  - apply Qle_bool_iff in Hb. rewrite pow2_succ. split; assumption.
  - assert (Hlt : q < 2 ^ (la - lb)).
    { apply Qnot_le_lt. intros H. apply Qle_bool_iff in H. congruence. }
    replace (la - lb - 1 + 1)%Z with (la - lb)%Z by lia.
    rewrite pow2_pred. split; [apply Qlt_le_weak |]; assumption.
Qed.

Lemma binade_unique q k : 2 ^ k <= q -> q < 2 ^ (k + 1) -> binade q = k.
Proof.
  intros H1 H2.
  assert (Hq : 0 < q) by (apply Qlt_le_trans with (2 ^ k); [apply pow2_pos | assumption]).
  destruct (binade_spec q Hq) as [H3 H4].
  destruct (Z.lt_trichotomy (binade q) k) as [Hlt | [Heq | Hgt]]; [| exact Heq |].
  - pose proof (pow2_mono (binade q + 1) k ltac:(lia)) as H.
    exfalso. apply (Qlt_irrefl q).
    eapply Qlt_le_trans; [exact H4 |]. eapply Qle_trans; [exact H | exact H1].
  - pose proof (pow2_mono (k + 1) (binade q) ltac:(lia)) as H.
    exfalso. apply (Qlt_irrefl q).
    eapply Qlt_le_trans; [exact H2 |]. eapply Qle_trans; [exact H | exact H3].
Qed.

(** [rne] is within one half of its argument. *)
Lemma rne_spec y : inject_Z (rne y) - (1 # 2) <= y /\ y <= inject_Z (rne y) + (1 # 2).
Proof.
  unfold rne. pose proof (Qfloor_le y) as Hf1. pose proof (Qlt_floor y) as Hf2.
  rewrite inject_Z_plus in Hf2. change (inject_Z 1) with 1 in Hf2.
  destruct (Qcompare (y - inject_Z (Qfloor y)) (1 # 2)) eqn:Hc.
  - apply Qeq_alt in Hc.
    destruct (Z.even (Qfloor y)); rewrite ?inject_Z_plus;
      change (inject_Z 1) with 1; split; lra.
  - apply Qlt_alt in Hc. split; lra.
  - apply Qgt_alt in Hc. rewrite inject_Z_plus.
    change (inject_Z 1) with 1. split; lra.
Qed.

Lemma rne_Z y z : y == inject_Z z -> rne y = z.
Proof.
  intros H. unfold rne. rewrite (Qfloor_comp _ _ H), Qfloor_Z.
  assert (Hc : Qcompare (y - inject_Z z) (1 # 2) = Lt).
  { apply Qlt_alt. rewrite H. unfold Qminus. rewrite Qplus_opp_r. reflexivity. }
  now rewrite Hc.
Qed.


Lemma rne_comp y y' : y == y' -> rne y = rne y'.
Proof.
  intros H. unfold rne. rewrite (Qfloor_comp _ _ H).
  assert (Hc : Qcompare (y - inject_Z (Qfloor y')) (1 # 2)
               = Qcompare (y' - inject_Z (Qfloor y')) (1 # 2))
    by (apply Qcompare_comp; [rewrite H |]; reflexivity).
  now rewrite Hc.
Qed.

Lemma binade_comp q q' : 0 < q -> q == q' -> binade q = binade q'.
Proof.
  intros Hq H. symmetry. destruct (binade_spec q Hq) as [H1 H2].
  apply binade_unique.
  - apply Qle_trans with q; [exact H1 |]. rewrite H. apply Qle_refl.
  - apply Qle_lt_trans with q; [| exact H2]. rewrite H. apply Qle_refl.
Qed.

Lemma round_pos_comp q q' : 0 < q -> q == q' -> round_pos q == round_pos q'.
Proof.
  intros Hq H. unfold round_pos. rewrite <- (binade_comp q q' Hq H).
  assert (Hy : q / 2 ^ (binade q - 52) == q' / 2 ^ (binade q - 52))
    by (unfold Qdiv; apply Qmult_comp; [exact H | reflexivity]).
  now rewrite (rne_comp _ _ Hy).
Qed.

Lemma round_positive q : 0 < q -> round q = round_pos q.
Proof.
  intros Hq. unfold round.
  assert (Hc : Qcompare q 0 = Gt) by (now apply Qgt_alt).
  now rewrite Hc.
Qed.

Lemma round_comp q q' : 0 < q -> q == q' -> round q == round q'.
Proof.
  intros Hq H. rewrite !round_positive by (rewrite <- ?H; exact Hq).
  now apply round_pos_comp.
Qed.

(** Rounding a positive number moves it by at most the unit roundoff,
    relatively. *)
Lemma round_error q :
  0 < q ->
  q * (1 - unit_roundoff) <= round q /\ round q <= q * (1 + unit_roundoff).
Proof.
  intros Hq. rewrite round_positive by exact Hq. unfold round_pos.
  destruct (binade_spec q Hq) as [Hb _].
  set (b := binade q) in *. set (P := 2 ^ (b - 52)).
  assert (HP : 0 < P) by apply pow2_pos.
  assert (HPb : P == 2 ^ b * (2 * unit_roundoff)).
  { subst P. unfold Z.sub. rewrite Qpower_plus by discriminate.
    apply Qmult_comp; [reflexivity | vm_compute; reflexivity]. }
  destruct (rne_spec (q / P)) as [Hm1 Hm2].
  set (m := inject_Z (rne (q / P))) in *.
  assert (HyP : q / P * P == q) by (field; lra).
  apply (Qmult_le_compat_r _ _ P) in Hm1; [| lra].
  apply (Qmult_le_compat_r _ _ P) in Hm2; [| lra].
  rewrite HyP in Hm1, Hm2.
  assert (Hhalf : (1 # 2) * P <= q * unit_roundoff).
  { rewrite HPb.
    assert (E : (1 # 2) * (2 ^ b * (2 * unit_roundoff)) == 2 ^ b * unit_roundoff)
      by ring.
    rewrite E. apply Qmult_le_compat_r; [exact Hb | discriminate]. }
  assert (E1 : (m - (1 # 2)) * P == m * P - (1 # 2) * P) by ring.
  assert (E2 : (m + (1 # 2)) * P == m * P + (1 # 2) * P) by ring.
  rewrite E1 in Hm1. rewrite E2 in Hm2.
  assert (E3 : q * (1 - unit_roundoff) == q - q * unit_roundoff) by ring.
  assert (E4 : q * (1 + unit_roundoff) == q + q * unit_roundoff) by ring.
  rewrite E3, E4.
  set (a := m * P) in *. set (h := (1 # 2) * P) in *. set (c := q * unit_roundoff) in *.
  split; lra.
Qed.

Lemma int_floor x : 0 <= x -> int x = Qfloor x.
Proof.
  intros H. destruct x as [n d]. unfold int, Qfloor. simpl.
  apply Z.quot_div_nonneg; [| reflexivity].
  unfold Qle in H. simpl in H. lia.
Qed.

Lemma Qfloor_unique x z : inject_Z z <= x -> x < inject_Z z + 1 -> Qfloor x = z.
Proof.
  intros H1 H2.
  pose proof (Qfloor_le x) as H3. pose proof (Qlt_floor x) as H4.
  rewrite inject_Z_plus in H4. change (inject_Z 1) with 1 in H4.
  assert (Ha : inject_Z z < inject_Z (Qfloor x) + 1) by lra.
  assert (Hb : inject_Z (Qfloor x) < inject_Z z + 1) by lra.
  change 1 with (inject_Z 1) in Ha, Hb. rewrite <- inject_Z_plus in Ha, Hb.
  rewrite <- Zlt_Qlt in Ha, Hb. lia.
Qed.


Lemma round_pos_positive q : 0 < q -> 0 < round q.
Proof.
  intros Hq. destruct (round_error q Hq) as [H _].
  apply Qlt_le_trans with (q * (1 - unit_roundoff)); [| exact H].
  apply Qmult_lt_0_compat; [exact Hq | reflexivity].
Qed.

Lemma inject_Z_pos z : (0 < z)%Z -> 0 < inject_Z z.
Proof. intros H. rewrite Zlt_Qlt in H. exact H. Qed.

Lemma inject_Z_le a b : (a <= b)%Z -> inject_Z a <= inject_Z b.
Proof. intros H. rewrite Zle_Qle in H. exact H. Qed.

(** Two roundings: the computed percentage lies within two relative unit
    roundoffs of the exact one. *)
Lemma percent_enclosure (x n : Z) :
  (0 < x)%Z -> (0 < n)%Z ->
  let t := 100 * (inject_Z x / inject_Z n) in
  let ph := mul (round (inject_Z x / inject_Z n)) 100 in
  0 < ph
  /\ t * (1 - unit_roundoff) * (1 - unit_roundoff) <= ph
  /\ ph <= t * (1 + unit_roundoff) * (1 + unit_roundoff).
Proof.
  intros Hx Hn t ph. subst t ph. unfold mul.
  assert (HnQ : 0 < inject_Z n) by (apply inject_Z_pos; lia).
  set (q := inject_Z x / inject_Z n).
  assert (Hq : 0 < q).
  { subst q. apply Qlt_shift_div_l; [exact HnQ |].
    rewrite Qmult_0_l. apply inject_Z_pos. lia. }
  destruct (round_error q Hq) as [Hq1 Hq2].
  pose proof (round_pos_positive q Hq) as Hqh.
  set (qh := round q) in *.
  assert (Hq100 : 0 < qh * 100) by (apply Qmult_lt_0_compat; [exact Hqh | reflexivity]).
  destruct (round_error (qh * 100) Hq100) as [Hp1 Hp2].
  pose proof (round_pos_positive (qh * 100) Hq100) as Hph.
  set (ph := round (qh * 100)) in *.
  unfold unit_roundoff in *. repeat split; lra.
Qed.

(** The exact percentage as a quotient and a remainder. *)
Lemma percent_div_mod (x n : Z) :
  (0 < n)%Z ->
  100 * (inject_Z x / inject_Z n)
  == inject_Z ((100 * x) / n) + inject_Z ((100 * x) mod n) / inject_Z n.
Proof.
  intros Hn.
  assert (HnQ : 0 < inject_Z n) by (apply inject_Z_pos; lia).
  assert (E : inject_Z 100 * inject_Z x
              == inject_Z n * inject_Z ((100 * x) / n) + inject_Z ((100 * x) mod n)).
  { rewrite <- !inject_Z_mult, <- inject_Z_plus, <- Z.div_mod by lia. reflexivity. }
  change (inject_Z 100) with 100 in E.
  assert (E' : 100 * (inject_Z x / inject_Z n) == 100 * inject_Z x / inject_Z n)
    by (field; lra).
  rewrite E', E. field. lra.
Qed.

(** The percentage of [x] out of [n], computed as the worker does, when
    the exact percentage is not a whole number. *)
Lemma percent_floor (x n : Z) :
  (0 < x <= n)%Z -> (n < 2 ^ 44)%Z -> ((100 * x) mod n <> 0)%Z ->
  int (mul (round (inject_Z x / inject_Z n)) 100) = ((100 * x) / n)%Z.
Proof.
  intros Hx Hn Hr.
  destruct (percent_enclosure x n ltac:(lia) ltac:(lia)) as (Hph & Hp1 & Hp2).
  pose proof (percent_div_mod x n ltac:(lia)) as Ht.
  set (ph := mul (round (inject_Z x / inject_Z n)) 100) in *.
  set (t := 100 * (inject_Z x / inject_Z n)) in *.
  set (F := ((100 * x) / n)%Z) in *. set (r := ((100 * x) mod n)%Z) in *.
  assert (Hdm : (100 * x = n * F + r)%Z) by (apply Z.div_mod; lia).
  assert (Hrb : (0 < r < n)%Z).
  { pose proof (Z.mod_pos_bound (100 * x) n ltac:(lia)) as H. fold r in H. lia. }
  assert (HF : (0 <= F <= 99)%Z) by nia.
  assert (HnQ : 0 < inject_Z n) by (apply inject_Z_pos; lia).
  rewrite int_floor by (apply Qlt_le_weak; exact Hph).
  set (u := 1 / inject_Z n). set (rho := inject_Z r / inject_Z n) in *.
  assert (Hu : 0 < u) by (subst u; apply Qlt_shift_div_l; [exact HnQ | lra]).
  assert (Hun : u * inject_Z n == 1) by (subst u; field; lra).
  assert (Hu44 : (1 # 17592186044416) <= u).
  { assert (Hle : inject_Z n <= 17592186044416)
      by (apply (inject_Z_le n (2 ^ 44)); lia).
    assert (Hm : u * inject_Z n <= u * 17592186044416)
      by (apply Qmult_le_l; assumption).
    rewrite Hun in Hm. lra. }
  assert (Hrho1 : u <= rho).
  { subst u rho. apply Qmult_le_compat_r.
    - apply (inject_Z_le 1 r). lia.
    - apply Qlt_le_weak, Qinv_lt_0_compat, HnQ. }
  assert (Hrho2 : rho <= 1 - u).
  { assert (E : 1 - u == (inject_Z n - 1) / inject_Z n) by (subst u; field; lra).
    rewrite E. subst rho. apply Qmult_le_compat_r.
    - apply Qle_trans with (inject_Z (n - 1)); [apply inject_Z_le; lia |].
      unfold Z.sub. rewrite inject_Z_plus. apply Qle_refl.
    - apply Qlt_le_weak, Qinv_lt_0_compat, HnQ. }
  assert (HFQ1 : 0 <= inject_Z F) by (apply (inject_Z_le 0 F); lia).
  assert (HFQ2 : inject_Z F <= 99) by (apply (inject_Z_le F 99); lia).
  unfold unit_roundoff in *.
  apply Qfloor_unique; lra.
Qed.

(** In every case the computed percentage is the exact one rounded down,
    or one less. *)
Lemma percent_bounds (x n : Z) :
  (0 < x <= n)%Z -> (n < 2 ^ 44)%Z ->
  let p := int (mul (round (inject_Z x / inject_Z n)) 100) in
  ((100 * x) / n - 1 <= p <= (100 * x) / n)%Z.
Proof.
  intros Hx Hn p. subst p.
  destruct (Z.eq_dec ((100 * x) mod n)%Z 0%Z) as [Hr0 | Hr0];
    [| rewrite percent_floor by assumption; lia].
  destruct (percent_enclosure x n ltac:(lia) ltac:(lia)) as (Hph & Hp1 & Hp2).
  pose proof (percent_div_mod x n ltac:(lia)) as Ht.
  rewrite Hr0 in Ht.
  set (ph := mul (round (inject_Z x / inject_Z n)) 100) in *.
  set (t := 100 * (inject_Z x / inject_Z n)) in *.
  set (F := ((100 * x) / n)%Z) in *.
  assert (Hdm : (100 * x = n * F + (100 * x) mod n)%Z) by (apply Z.div_mod; lia).
  assert (HF : (0 <= F <= 100)%Z) by nia.
  assert (HnQ : 0 < inject_Z n) by (apply inject_Z_pos; lia).
  assert (Ht' : t == inject_Z F).
  { rewrite Ht. unfold Qdiv. change (inject_Z 0) with 0. ring. }
  rewrite int_floor by (apply Qlt_le_weak; exact Hph).
  assert (HFQ1 : 0 <= inject_Z F) by (apply (inject_Z_le 0 F); lia).
  assert (HFQ2 : inject_Z F <= 100) by (apply (inject_Z_le F 100); lia).
  pose proof (Qfloor_le ph) as Hf1. pose proof (Qlt_floor ph) as Hf2.
  rewrite inject_Z_plus in Hf2. change (inject_Z 1) with 1 in Hf2.
  unfold unit_roundoff in *.
  assert (Hlo : inject_Z F < inject_Z (Qfloor ph + 2)).
  { rewrite inject_Z_plus. change (inject_Z 2) with 2. lra. }
  assert (Hhi : inject_Z (Qfloor ph) < inject_Z (F + 1)).
  { rewrite inject_Z_plus. change (inject_Z 1) with 1. lra. }
  rewrite <- Zlt_Qlt in Hlo, Hhi. lia.
Qed.

(** The last file: [n / n] is exactly 1 and [1 * 100] exactly 100. *)
Lemma percent_last (n : Z) :
  (0 < n)%Z -> int (mul (round (inject_Z n / inject_Z n)) 100) = 100%Z.
Proof.
  intros Hn. unfold mul.
  assert (HnQ : 0 < inject_Z n) by (apply inject_Z_pos; lia).
  assert (H1 : inject_Z n / inject_Z n == 1) by (field; lra).
  assert (Hq : 0 < inject_Z n / inject_Z n) by (rewrite H1; reflexivity).
  pose proof (round_comp _ _ Hq H1) as Hr.
  pose proof (round_pos_positive _ Hq) as Hqh.
  set (qh := round (inject_Z n / inject_Z n)) in *.
  assert (Hq100 : 0 < qh * 100)
    by (apply Qmult_lt_0_compat; [exact Hqh | reflexivity]).
  assert (Hm : qh * 100 == round 1 * 100) by (rewrite Hr; reflexivity).
  pose proof (round_comp _ _ Hq100 Hm) as Hp.
  rewrite int_floor by (apply Qlt_le_weak, round_pos_positive, Hq100).
  rewrite (Qfloor_comp _ _ Hp). vm_compute. reflexivity.
Qed.

End Binary64Facts.

(** The progress value of a file that is not the last one and whose
    percentage is not a whole number is that percentage rounded down. *)
Lemma progress_value_floor (i total_files : nat) :
  (i < total_files)%nat ->
  (Z.of_nat total_files < 2 ^ 44)%Z ->
  ((100 * (Z.of_nat i + 1)) mod Z.of_nat total_files <> 0)%Z ->
  progress_value i total_files
  = inr ((100 * (Z.of_nat i + 1)) / Z.of_nat total_files)%Z.
Proof.
  intros Hi Hn Hr. unfold progress_value, Binary64.truediv.
  destruct (Z.eqb_spec (Z.of_nat total_files) 0) as [H0 | _]; [lia |].
  f_equal. apply Binary64Facts.percent_floor; [lia | exact Hn | exact Hr].
Qed.

Lemma progress_value_last (i total_files : nat) :
  S i = total_files -> progress_value i total_files = inr 100%Z.
Proof.
  intros <-. unfold progress_value, Binary64.truediv.
  destruct (Z.eqb_spec (Z.of_nat (S i)) 0) as [H0 | _]; [lia |].
  f_equal. replace (Z.of_nat i + 1)%Z with (Z.of_nat (S i)) by lia.
  apply Binary64Facts.percent_last. lia.
Qed.

(** The rational model of the progress arithmetic computes what the
    hardware computes: checked for every index of every batch of up to 100
    files. *)
Lemma progress_value_agrees_with_hardware :
  forallb agrees_with_hardware (seq 1 100) = true.
Proof. vm_compute. reflexivity. Qed.

(** ** The [try] body and the loop *)

Section WorkerFacts.

Context {os_path : OsPath} (ext : Externals).

Lemma quiet_bind {A B} (m : M A) (k : A -> M B) :
  quiet m -> (forall a, quiet (k a)) -> quiet (bind m k).
Proof.
  intros Hm Hk s. unfold bind. specialize (Hm s).
  destruct (m s) as [s' [e | a]]; simpl in *; [assumption |].
  destruct (Hk a s') as [H1 H2]. destruct Hm as [H3 H4].
  split; congruence.
Qed.

Lemma stable_bind {A B} (m : M A) (k : A -> M B) :
  stable m -> (forall a, stable (k a)) -> stable (bind m k).
Proof.
  intros Hm Hk s1 s2. unfold bind. specialize (Hm s1 s2).
  destruct (m s1) as [s1' [e1 | a1]], (m s2) as [s2' [e2 | a2]];
    simpl in *; try congruence.
  injection Hm as ->. apply Hk.
Qed.

Lemma quiet_lift {A} (r : exn + A) : quiet (lift r).
Proof. intros s. split; reflexivity. Qed.

Lemma stable_lift {A} (r : exn + A) : stable (lift r).
Proof. intros s1 s2. reflexivity. Qed.

Lemma quiet_ret {A} (a : A) : quiet (ret a).
Proof. intros s. split; reflexivity. Qed.

Lemma stable_ret {A} (a : A) : stable (ret a).
Proof. intros s1 s2. reflexivity. Qed.

Lemma quiet_read_local o : quiet (read_local o).
Proof. intros s. destruct o; split; reflexivity. Qed.

Lemma stable_read_local o : stable (read_local o).
Proof. intros s1 s2. destruct o; reflexivity. Qed.

Lemma quiet_write path data rate subtype : quiet (write ext path data rate subtype).
Proof. intros s. unfold write. destruct (sf_write ext path data rate subtype); split; reflexivity. Qed.

Lemma stable_write path data rate subtype : stable (write ext path data rate subtype).
Proof. intros s1 s2. unfold write. destruct (sf_write ext path data rate subtype); reflexivity. Qed.

Lemma quiet_from_wav path : quiet (from_wav ext path).
Proof.
  intros s. unfold from_wav.
  destruct (bool_decide _), (AudioSegment_from_wav ext path); split; reflexivity.
Qed.

Lemma quiet_export path bitrate : quiet (export ext path bitrate).
Proof. intros s. unfold export. destruct (AudioSegment_export ext path bitrate); split; reflexivity. Qed.

Lemma quiet_os_remove path : quiet (os_remove path).
Proof. intros s. unfold os_remove. destruct (bool_decide _); split; reflexivity. Qed.

Create HintDb worker.

Hint Resolve quiet_lift quiet_ret quiet_read_local quiet_write quiet_from_wav
  quiet_export quiet_os_remove stable_lift stable_ret stable_read_local
  stable_write : worker.

Lemma quiet_save w base_name output_file o : quiet (save ext w base_name output_file o).
Proof.
  unfold save.
  destruct (existsb _ _); [| destruct (String.eqb _ "mp3")];
    repeat (apply quiet_bind; [| intros ?]); auto with worker.
Qed.

Lemma quiet_pipeline w file_path file_name : quiet (pipeline ext w file_path file_name).
Proof.
  unfold pipeline.
  repeat (apply quiet_bind; [| intros ?]); auto using quiet_save with worker.
  destruct (negb _); repeat (apply quiet_bind; [| intros ?]); auto with worker.
Qed.


Lemma stable_save w base_name output_file o : stable (save ext w base_name output_file o).
Proof.
  unfold save.
  destruct (existsb _ _); [| destruct (String.eqb _ "mp3")]; auto with worker.
  - apply stable_bind; [| intros ?]; auto with worker.
  - apply stable_bind; [| intros a]; auto with worker.
    intros s1 s2. unfold bind, write, from_wav, export, os_remove.
    destruct (sf_write ext _ a _ None); [reflexivity |].
    cbn [disk create].
    rewrite !bool_decide_eq_true_2 by set_solver.
    destruct (AudioSegment_from_wav ext _); [reflexivity |].
    destruct (AudioSegment_export ext _ _); [reflexivity |].
    cbn [disk create].
    rewrite !bool_decide_eq_true_2 by set_solver.
    reflexivity.
Qed.

Lemma stable_pipeline w file_path file_name : stable (pipeline ext w file_path file_name).
Proof.
  unfold pipeline.
  repeat (apply stable_bind; [| intros ?]); auto using stable_save with worker.
  destruct (negb _); repeat (apply stable_bind; [| intros ?]); auto with worker.
Qed.

(** How the [try] body ends, and what it emits, from any state. *)
Lemma try_body_spec w total_files i file_path s :
  let r := try_body ext w total_files i file_path (basename file_path) s in
  is_running (fst r) = is_running s /\
  snd r = outcome ext w total_files i file_path /\
  emitted (fst r) =
    emitted s ++
    match outcome ext w total_files i file_path with
    | inr _ => [progress_updated (progress_percent i total_files);
                file_processed (basename file_path)]
    | inl _ => []
    end.
Proof.
  unfold outcome, try_body, bind, progress_percent.
  pose proof (stable_pipeline w file_path (basename file_path) s (init ∅)) as Hst.
  destruct (quiet_pipeline w file_path (basename file_path) s) as [Hr He].
  destruct (pipeline ext w file_path (basename file_path) s) as [s' [e | u]],
    (pipeline ext w file_path (basename file_path) (init ∅)) as [s0 [e0 | u0]];
    simpl in Hst, Hr, He; try discriminate.
  - simpl. rewrite app_nil_r. auto.
  - unfold lift, act. destruct (progress_value i total_files) as [e | p]; simpl.
    + rewrite app_nil_r. auto.
    + rewrite He, <- app_assoc. auto.
Qed.

Lemma try_body_outcome w total_files i file_path s :
  snd (try_body ext w total_files i file_path (basename file_path) s)
  = outcome ext w total_files i file_path.
Proof. apply try_body_spec. Qed.

Lemma process_file_spec w total_files i file_path s :
  is_running (process_file ext w total_files i file_path s) = is_running s /\
  emitted (process_file ext w total_files i file_path s) =
    emitted s ++
    match outcome ext w total_files i file_path with
    | inr _ => [progress_updated (progress_percent i total_files);
                file_processed (basename file_path)]
    | inl e => [file_processed (error_label (basename file_path) e)]
    end.
Proof.
  unfold process_file.
  destruct (try_body_spec w total_files i file_path s) as (Hr & Ho & He).
  destruct (try_body ext w total_files i file_path (basename file_path) s)
    as [s' [e | u]]; simpl in Hr, Ho, He; rewrite <- Ho in He |- *.
  - simpl. rewrite He, app_nil_r. auto.
  - auto.
Qed.

Lemma process_file_running w total_files i file_path s :
  is_running (process_file ext w total_files i file_path s) = is_running s.
Proof. apply process_file_spec. Qed.

Lemma file_signals_outcome w total_files i file_path :
  file_signals ext w total_files i file_path =
    match outcome ext w total_files i file_path with
    | inr _ => [progress_updated (progress_percent i total_files);
                file_processed (basename file_path)]
    | inl e => [file_processed (error_label (basename file_path) e)]
    end.
Proof.
  unfold file_signals.
  destruct (process_file_spec w total_files i file_path (init ∅)) as [_ ->].
  reflexivity.
Qed.

Lemma process_file_emitted w total_files i file_path s :
  emitted (process_file ext w total_files i file_path s)
  = emitted s ++ file_signals ext w total_files i file_path.
Proof.
  rewrite file_signals_outcome. apply process_file_spec.
Qed.



End WorkerFacts.

(** ** Signal streams of whole runs *)

Section RunFacts.

Context {os_path : OsPath} (ext : Externals).

Lemma labels_app a b : labels (a ++ b) = labels a ++ labels b.
Proof.
  induction a as [| [v | l |] a IH]; simpl; rewrite ?IH; reflexivity.
Qed.

Lemma progress_values_app a b :
  progress_values (a ++ b) = progress_values a ++ progress_values b.
Proof.
  induction a as [| [v | l |] a IH]; simpl; rewrite ?IH; reflexivity.
Qed.

Lemma labels_file_signals w total_files i file_path :
  labels (file_signals ext w total_files i file_path)
  = [status_label (basename file_path) (outcome ext w total_files i file_path)].
Proof.
  rewrite file_signals_outcome.
  destruct (outcome ext w total_files i file_path); reflexivity.
Qed.

Lemma progress_values_file_signals w total_files i file_path :
  progress_values (file_signals ext w total_files i file_path)
  = match outcome ext w total_files i file_path with
    | inr _ => [progress_percent i total_files]
    | inl _ => []
    end.
Proof.
  rewrite file_signals_outcome.
  destruct (outcome ext w total_files i file_path); reflexivity.
Qed.

Lemma finished_not_in_file_signals w total_files i file_path :
  finished ∉ file_signals ext w total_files i file_path.
Proof.
  rewrite file_signals_outcome.
  destruct (outcome ext w total_files i file_path); intros H;
    repeat (apply elem_of_cons in H as [H | H]; [discriminate |]);
    inversion H.
Qed.


Lemma labels_loop_signals w total_files files : forall i,
  labels (loop_signals ext w total_files i files)
  = imap (fun j p => status_label (basename p) (outcome ext w total_files (i + j) p)) files.
Proof.
  induction files as [| p rest IH]; intros i; [reflexivity |].
  cbn [loop_signals]. rewrite labels_app, labels_file_signals, imap_cons, IH.
  rewrite Nat.add_0_r. simpl. f_equal.
  apply imap_ext. intros j x _. simpl. do 2 f_equal. lia.
Qed.

Lemma progress_values_loop_signals w total_files files : forall i,
  progress_values (loop_signals ext w total_files i files)
  = concat (imap (fun j p =>
      match outcome ext w total_files (i + j) p with
      | inr _ => [progress_percent (i + j) total_files]
      | inl _ => []
      end) files).
Proof.
  induction files as [| p rest IH]; intros i; [reflexivity |].
  cbn [loop_signals].
  rewrite progress_values_app, progress_values_file_signals, imap_cons, IH.
  rewrite Nat.add_0_r. cbn [concat]. do 2 f_equal.
  apply imap_ext. intros j x _. unfold compose.
  replace (S i + j) with (i + S j) by lia. reflexivity.
Qed.


Lemma finished_not_in_loop_signals w total_files files : forall i,
  finished ∉ loop_signals ext w total_files i files.
Proof.
  induction files as [| p rest IH]; intros i; cbn [loop_signals].
  - apply not_elem_of_nil.
  - rewrite elem_of_app. intros [H | H].
    + exact (finished_not_in_file_signals _ _ _ _ H).
    + exact (IH _ H).
Qed.

(** Whatever the stop requests, the loop runs a prefix of the files. *)
Lemma run_loop_prefix w stop_requested total_files files : forall i s,
  exists n, n <= length files /\
    emitted (run_loop ext w stop_requested total_files i files s)
    = emitted s ++ loop_signals ext w total_files i (take n files).
Proof.
  induction files as [| p rest IH]; intros i s.
  - exists 0. simpl. now rewrite app_nil_r.
  - cbn [run_loop].
    set (s1 := if stop_requested i then stop s else s).
    assert (Hs1 : emitted s1 = emitted s) by (subst s1; destruct (stop_requested i); reflexivity).
    destruct (is_running s1).
    + cbn [negb]. destruct (IH (S i) (process_file ext w total_files i p s1)) as (n & Hn & ->).
      exists (S n). split; [simpl; lia |].
      rewrite process_file_emitted, Hs1, <- app_assoc. reflexivity.
    + exists 0. split; [lia |]. cbn [negb take loop_signals].
      now rewrite Hs1, app_nil_r.
Qed.


End RunFacts.

(** ** The properties of the specification *)

Section Claims.

Context {os_path : OsPath} (ext : Externals).

(** C10.  With an empty input list the run emits no progress signal and no
    status signal, and emits [finished] exactly once: the stream is
    [[finished]], whatever the stop requests and the output folder. *)
Theorem run_empty_input output format level method bits keep_stereo rate
    stop_requested d :
  emitted (run ext (Worker [] output format level method bits keep_stereo rate)
             stop_requested (init d))
  = [finished].
Proof. reflexivity. Qed.




(** C8, as the code has it.  For a successfully processed file at index
    [i] of [total_files] (fewer than 2^44), the emitted progress value is
    [int((i+1)/total_files*100)] in double precision: it is the percentage
    [100*(i+1)/total_files] rounded down whenever that percentage is not a
    whole number, and 100 for the last file. *)
Theorem progress_is_truncated_percentage w total_files i file_path :
  (i < total_files)%nat ->
  (Z.of_nat total_files < 2 ^ 44)%Z ->
  outcome ext w total_files i file_path = inr tt ->
  exists p,
    file_signals ext w total_files i file_path
      = [progress_updated p; file_processed (basename file_path)]
    /\ progress_value i total_files = inr p
    /\ ((100 * (Z.of_nat i + 1)) mod Z.of_nat total_files <> 0 ->
        p = floored_percent i total_files)%Z
    /\ (S i = total_files -> p = 100%Z).
Proof.
  intros Hi Hn Hok.
  assert (Hp : progress_value i total_files = inr (progress_percent i total_files)).
  { unfold progress_percent, progress_value, Binary64.truediv.
    destruct (Z.eqb_spec (Z.of_nat total_files) 0) as [H0 | _]; [lia | reflexivity]. }
  exists (progress_percent i total_files).
  split; [rewrite file_signals_outcome, Hok; reflexivity |].
  split; [exact Hp |]. split.
  - intros Hr. pose proof (progress_value_floor i total_files Hi Hn Hr) as H.
    rewrite Hp in H. now injection H.
  - intros Hlast. pose proof (progress_value_last i total_files Hlast) as H.
    rewrite Hp in H. now injection H.
Qed.

End Claims.

(** ** Concrete runs *)

Section Concrete.

#[local] Existing Instance posixpath.os_path.

Import Studio.




(** C2, on the code.  One file encoded to mp3 on a machine whose transcoder
    fails: the failure is reported, the run finishes, and the temporary
    wav is still in the output folder, beside the destination the failed
    export left. *)
Theorem failed_transcode_leaves_temp_file :
  let s := run world_broken_encoder (job ["/in/a.wav"] "mp3") never (init ∅) in
  emitted s
    = [file_processed "ERROR: a.wav - Encoding failed. ffmpeg/avlib returned error code: 1";
       finished]
  /\ elements (disk s) = ["/out/a_temp.wav"; "/out/a.mp3"].
Proof. vm_compute. split; reflexivity. Qed.

(** When the transcoder succeeds the temporary wav is removed. *)
Example successful_transcode_removes_temp_file :
  let s := run world (job ["/in/a.wav"] "mp3") never (init ∅) in
  emitted s = [progress_updated 100; file_processed "a.wav"; finished]
  /\ elements (disk s) = ["/out/a.mp3"].
Proof. vm_compute. split; reflexivity. Qed.


(** File 2 of 3 reports 66 where the rounded percentage is 67, and file 29
    of 100 reports 28 although its percentage is exactly 29. *)
Lemma progress_rounding_counterexample :
  let w3 := job ["/in/a.wav"; "/in/b.wav"; "/in/c.wav"] "wav" in
  let w100 := job (repeat "/in/a.wav" 100) "wav" in
  (labels (emitted (run world w3 never (init ∅))) = ["a.wav"; "b.wav"; "c.wav"]
   /\ progress_values (emitted (run world w3 never (init ∅))) = [33; 66; 100]%Z
   /\ map (fun i => rounded_percent i 3) [0; 1; 2] = [33; 67; 100]%Z)
  /\ (progress_values (emitted (run world w100 never (init ∅))) !! 28 = Some 28%Z
      /\ rounded_percent 28 100 = 29%Z
      /\ floored_percent 28 100 = 29%Z
      /\ ((100 * (28 + 1)) mod 100 = 0)%Z).
Proof. vm_compute. repeat split; reflexivity. Qed.

(** File 2 of 3. *)
Lemma progress_is_truncated_percentage_witness :
  exists p,
    file_signals world (job ["/in/a.wav"; "/in/b.wav"; "/in/c.wav"] "wav") 3 1 "/in/b.wav"
      = [progress_updated p; file_processed "b.wav"]
    /\ progress_value 1 3 = inr p
    /\ ((100 * (1 + 1)) mod 3 <> 0 -> p = floored_percent 1 3)%Z
    /\ (2 = 3 -> p = 100%Z).
Proof.
  assert (H1 : (1 < 3)%nat) by lia.
  assert (H2 : (Z.of_nat 3 < 2 ^ 44)%Z) by reflexivity.
  assert (H3 : outcome world (job ["/in/a.wav"; "/in/b.wav"; "/in/c.wav"] "wav")
                 3 1 "/in/b.wav" = inr tt) by (vm_compute; reflexivity).
  exact (progress_is_truncated_percentage world
           (job ["/in/a.wav"; "/in/b.wav"; "/in/c.wav"] "wav") 3 1 "/in/b.wav"
           H1 H2 H3).
Defined.

End Concrete.



(** * Further properties of the code *)

(** ** Normalisation *)

Section MoreNumerics.

Local Open Scope R_scope.

Lemma length_scale g xs : length (scale g xs) = length xs.
Proof. apply length_map. Qed.

Lemma shape_mul_scalar audio g : shape (mul_scalar audio g) = shape audio.
Proof.
  unfold shape.
  destruct audio as [xs | c0 c1 more]; cbn [mul_scalar channels map].
  - now rewrite length_scale.
  - rewrite !length_scale, map_map. do 2 f_equal.
    apply map_ext. intros c. apply length_scale.
Qed.

(** X3. Normalisation never changes the number of frames of a channel.
    The peak and loudness branches keep every channel; the rms branch
    returns the first two channels only, so a buffer of more than two
    channels loses the others. *)
Theorem normalize_keeps_frames m L audio normalized_audio :
  normalize m L audio = inr (Some normalized_audio) ->
  shape normalized_audio
  = if String.eqb m "rms" then take 2 (shape audio) else shape audio.
Proof.
  unfold normalize. intros H.
  destruct (String.eqb m "peak") eqn:Hpeak.
  - apply String.eqb_eq in Hpeak. subst m. cbn [String.eqb Ascii.eqb Bool.eqb].
    destruct (np_max (np_abs (flat audio))) as [e | mx]; [discriminate |].
    injection H as <-. destruct (gt0 mx); [apply shape_mul_scalar | reflexivity].
  - destruct (String.eqb m "rms") eqn:Hrms.
    + destruct audio as [xs | c0 c1 more]; injection H as <-.
      * unfold shape. cbn [mul_scalar channels map take]. now rewrite length_scale.
      * unfold shape. cbn [channels map take]. now rewrite !length_scale.
    + destruct (String.eqb m "loudness"); [| discriminate].
      injection H as <-. apply shape_mul_scalar.
Qed.

Lemma normalize_unknown m L audio :
  m <> "peak" -> m <> "rms" -> m <> "loudness" -> normalize m L audio = inr None.
Proof.
  intros Hp Hr Hl. unfold normalize.
  destruct (String.eqb_spec m "peak"); [contradiction |].
  destruct (String.eqb_spec m "rms"); [contradiction |].
  destruct (String.eqb_spec m "loudness"); [contradiction | reflexivity].
Qed.

(** X5. What can go wrong in the normalisation step: the only exception
    is the [ValueError] of [np.max] in the peak branch, raised exactly for
    a buffer without samples; and [normalized_audio] stays unbound exactly
    when the method is none of peak, rms and loudness. *)
Theorem normalize_failures m L audio :
  (forall e, normalize m L audio = inl e
             <-> m = "peak" /\ flat audio = [] /\ e = ValueError_empty_max)
  /\ (normalize m L audio = inr None
      <-> m <> "peak" /\ m <> "rms" /\ m <> "loudness").
Proof.
  unfold normalize.
  destruct (String.eqb_spec m "peak") as [-> | Hp].
  - split.
    + intros e. destruct (flat audio) as [| x xs]; cbn [np_abs map np_max].
      * split; [intros [= <-]; auto | intros (_ & _ & ->); reflexivity].
      * split; [discriminate | intros (_ & [=] & _)].
    + split; [| intros ([] & _); reflexivity].
      destruct (np_max (np_abs (flat audio))); discriminate.
  - destruct (String.eqb_spec m "rms") as [-> | Hr].
    + split.
      * intros e. split; [destruct audio; discriminate | intros ([=] & _)].
      * split; [destruct audio; discriminate | intros (_ & [] & _); reflexivity].
    + destruct (String.eqb_spec m "loudness") as [-> | Hl].
      * split.
        -- intros e. split; [discriminate | intros ([=] & _)].
        -- split; [discriminate | intros (_ & _ & []); reflexivity].
      * split.
        -- intros e. split; [discriminate | intros (-> & _); contradiction].
        -- split; auto.
Qed.

End MoreNumerics.

(** ** Order and range of the progress values *)

Module Binary64Order.
Import Binary64 Binary64Facts Lqa.
Local Open Scope Q_scope.

(** Rounding to the nearest integer is monotone. *)
Lemma rne_mono y y' : y <= y' -> (rne y <= rne y')%Z.
Proof.
  intros H.
  destruct (rne_spec y) as [H1 H2]. destruct (rne_spec y') as [H3 H4].
  destruct (Z_le_gt_dec (rne y) (rne y')) as [Hle | Hgt]; [exact Hle |].
  exfalso.
  assert (Hz : inject_Z (rne y' + 1) <= inject_Z (rne y)) by (apply inject_Z_le; lia).
  rewrite inject_Z_plus in Hz. change (inject_Z 1) with 1 in Hz.
  assert (Heq : y == y') by lra.
  pose proof (rne_comp y y' Heq). lia.
Qed.

Lemma binade_mono q q' : 0 < q -> q <= q' -> (binade q <= binade q')%Z.
Proof.
  intros Hq Hle.
  assert (Hq' : 0 < q') by lra.
  destruct (binade_spec q Hq) as [H1 _]. destruct (binade_spec q' Hq') as [_ H2].
  destruct (Z_le_gt_dec (binade q) (binade q')) as [H | H]; [exact H |].
  exfalso. pose proof (pow2_mono (binade q' + 1) (binade q) ltac:(lia)) as Hm.
  apply (Qlt_irrefl q).
  apply Qle_lt_trans with q'; [exact Hle |].
  apply Qlt_le_trans with (2 ^ (binade q' + 1)); [exact H2 |].
  apply Qle_trans with (2 ^ binade q); assumption.
Qed.

(** A rounded positive number stays in its binade, end points included. *)
Lemma round_pos_binade q :
  0 < q -> 2 ^ binade q <= round_pos q /\ round_pos q <= 2 ^ (binade q + 1).
Proof.
  intros Hq. destruct (binade_spec q Hq) as [H1 H2]. unfold round_pos.
  set (b := binade q) in *. set (P := 2 ^ (b - 52)).
  assert (HP : 0 < P) by apply pow2_pos.
  assert (Hlo : 2 ^ b == inject_Z (2 ^ 52) * P).
  { subst P. rewrite (pow2_Z 52) by lia. rewrite <- Qpower_plus by discriminate.
    now replace (52 + (b - 52))%Z with b by lia. }
  assert (Hhi : 2 ^ (b + 1) == inject_Z (2 ^ 53) * P).
  { subst P. rewrite (pow2_Z 53) by lia. rewrite <- Qpower_plus by discriminate.
    now replace (53 + (b - 52))%Z with (b + 1)%Z by lia. }
  assert (Hy1 : inject_Z (2 ^ 52) <= q / P).
  { apply Qle_shift_div_l; [exact HP |]. rewrite <- Hlo. exact H1. }
  assert (Hy2 : q / P <= inject_Z (2 ^ 53)).
  { apply Qle_shift_div_r; [exact HP |]. rewrite <- Hhi. apply Qlt_le_weak, H2. }
  apply rne_mono in Hy1, Hy2.
  rewrite (rne_Z (inject_Z (2 ^ 52)) (2 ^ 52)) in Hy1 by reflexivity.
  rewrite (rne_Z (inject_Z (2 ^ 53)) (2 ^ 53)) in Hy2 by reflexivity.
  rewrite Hlo, Hhi. split; apply Qmult_le_compat_r;
    try (apply inject_Z_le; assumption); apply Qlt_le_weak, HP.
Qed.

Lemma round_pos_mono q q' : 0 < q -> q <= q' -> round_pos q <= round_pos q'.
Proof.
  intros Hq Hle. assert (Hq' : 0 < q') by lra.
  pose proof (binade_mono q q' Hq Hle) as Hb.
  destruct (Z.eq_dec (binade q) (binade q')) as [He | Hne].
  - unfold round_pos. rewrite <- He.
    set (P := 2 ^ (binade q - 52)).
    assert (HP : 0 < P) by apply pow2_pos.
    apply Qmult_le_compat_r; [| apply Qlt_le_weak, HP].
    apply inject_Z_le, rne_mono.
    apply Qmult_le_compat_r; [exact Hle |].
    apply Qlt_le_weak, Qinv_lt_0_compat, HP.
  - destruct (round_pos_binade q Hq) as [_ H1].
    destruct (round_pos_binade q' Hq') as [H2 _].
    apply Qle_trans with (2 ^ (binade q + 1)); [exact H1 |].
    apply Qle_trans with (2 ^ binade q'); [| exact H2].
    apply pow2_mono. lia.
Qed.

Lemma round_mono q q' : 0 < q -> q <= q' -> round q <= round q'.
Proof.
  intros Hq Hle. rewrite !round_positive by lra. now apply round_pos_mono.
Qed.

(** The worker's percentage, as a function of the count of files done. *)
Lemma percent_mono (x x' n : Z) :
  (0 < x <= x')%Z -> (0 < n)%Z ->
  (int (mul (round (inject_Z x / inject_Z n)) 100)
   <= int (mul (round (inject_Z x' / inject_Z n)) 100))%Z.
Proof.
  intros Hx Hn. unfold mul.
  assert (HnQ : 0 < inject_Z n) by (apply inject_Z_pos; lia).
  assert (Hq : 0 < inject_Z x / inject_Z n).
  { apply Qlt_shift_div_l; [exact HnQ |]. rewrite Qmult_0_l. apply inject_Z_pos. lia. }
  assert (Hle : inject_Z x / inject_Z n <= inject_Z x' / inject_Z n).
  { apply Qmult_le_compat_r; [apply inject_Z_le; lia |].
    apply Qlt_le_weak, Qinv_lt_0_compat, HnQ. }
  pose proof (round_mono _ _ Hq Hle) as Hr.
  pose proof (round_pos_positive _ Hq) as Hrp.
  assert (Hm : round (inject_Z x / inject_Z n) * 100
               <= round (inject_Z x' / inject_Z n) * 100)
    by (apply Qmult_le_compat_r; [exact Hr | discriminate]).
  assert (Hmp : 0 < round (inject_Z x / inject_Z n) * 100)
    by (apply Qmult_lt_0_compat; [exact Hrp | reflexivity]).
  pose proof (round_mono _ _ Hmp Hm) as Hr2.
  pose proof (round_pos_positive _ Hmp) as Hp1.
  rewrite !int_floor by lra.
  now apply Qfloor_resp_le.
Qed.

Lemma percent_range (x n : Z) :
  (0 < x <= n)%Z ->
  (0 <= int (mul (round (inject_Z x / inject_Z n)) 100) <= 100)%Z.
Proof.
  intros Hx. split.
  - destruct (percent_enclosure x n ltac:(lia) ltac:(lia)) as (Hph & _).
    rewrite int_floor by (apply Qlt_le_weak, Hph).
    rewrite <- (Qfloor_Z 0). apply Qfloor_resp_le, Qlt_le_weak, Hph.
  - pose proof (percent_mono x n n ltac:(lia) ltac:(lia)) as H.
    rewrite (percent_last n) in H by lia. exact H.
Qed.

End Binary64Order.

Lemma progress_percent_value i total_files :
  (i < total_files)%nat ->
  progress_value i total_files = inr (progress_percent i total_files).
Proof.
  intros Hi. unfold progress_percent, progress_value, Binary64.truediv.
  destruct (Z.eqb_spec (Z.of_nat total_files) 0) as [H0 | _]; [lia | reflexivity].
Qed.

Lemma progress_percent_unfold i total_files :
  (i < total_files)%nat ->
  progress_percent i total_files
  = Binary64.int (Binary64.mul
      (Binary64.round (inject_Z (Z.of_nat i + 1) / inject_Z (Z.of_nat total_files))) 100).
Proof.
  intros Hi. unfold progress_percent, progress_value, Binary64.truediv.
  destruct (Z.eqb_spec (Z.of_nat total_files) 0) as [H0 | _]; [lia | reflexivity].
Qed.

Lemma progress_percent_mono i j total_files :
  (i <= j < total_files)%nat ->
  (progress_percent i total_files <= progress_percent j total_files)%Z.
Proof.
  intros H. rewrite !progress_percent_unfold by lia.
  apply Binary64Order.percent_mono; lia.
Qed.

Lemma progress_percent_range i total_files :
  (i < total_files)%nat -> (0 <= progress_percent i total_files <= 100)%Z.
Proof.
  intros H. rewrite progress_percent_unfold by lia.
  apply Binary64Order.percent_range. lia.
Qed.

(** ** What a run does to the disk *)

Section DiskFacts.

Context {os_path : OsPath} (ext : Externals).

(** Before the save step nothing is touched: the pipeline either raises in
    the state it started in or is the save step of some buffer. *)
Lemma pipeline_cases w file_path s :
  (exists e, pipeline ext w file_path (basename file_path) s = (s, inl e))
  \/ (exists o, pipeline ext w file_path (basename file_path) s
                = save ext w (fst (splitext (basename file_path)))
                    (output_file w file_path) o s).
Proof.
  unfold pipeline, bind, lift.
  destruct (librosa_load ext file_path (negb (stereo w))) as [e | [audio sr]];
    [left; eauto |].
  cbn [fst snd].
  destruct (normalize (normalize_method w) (target_level w) audio) as [e | o];
    [left; eauto |].
  destruct (negb (sr =? sample_rate w)%Z).
  - destruct o as [a |]; cbn [read_local]; unfold ret, raise; [| left; eauto].
    destruct (librosa_resample ext a sr (sample_rate w)) as [e | r];
      [left; eauto | right; eauto].
  - unfold ret. right. eauto.
Qed.

(** What the save step does to the output folder, by format. *)
Lemma save_disk w file_path o s :
  let r := save ext w (fst (splitext (basename file_path)))
             (output_file w file_path) o s in
  let out := output_file w file_path in
  let tmp := temp_wav w file_path in
  if direct w then
    match snd r with
    | inr _ => disk (fst r) = {[ out ]} ∪ disk s
    | inl _ => disk (fst r) = disk s
    end
  else if String.eqb (target_format w) "mp3" then
    match snd r with
    | inr _ => disk (fst r) = ({[ out ]} ∪ ({[ tmp ]} ∪ disk s)) ∖ {[ tmp ]}
    | inl _ => disk (fst r) = disk s \/ disk (fst r) = {[ tmp ]} ∪ disk s
               \/ disk (fst r) = {[ out ]} ∪ ({[ tmp ]} ∪ disk s)
    end
  else disk (fst r) = disk s /\ snd r = inr tt.
Proof.
  cbv zeta. unfold save, direct. fold (temp_wav w file_path).
  destruct (existsb (String.eqb (target_format w)) direct_formats).
  - destruct o as [a |]; unfold bind, read_local, ret, raise, write;
      [| reflexivity].
    destruct (sf_write ext _ a _ _); reflexivity.
  - destruct (String.eqb (target_format w) "mp3"); [| split; reflexivity].
    destruct o as [a |]; unfold bind, read_local, ret, raise, write, from_wav,
      export, os_remove; [| left; reflexivity].
    destruct (sf_write ext _ a _ None); [left; reflexivity |].
    cbn [disk create].
    rewrite !bool_decide_eq_true_2 by set_solver.
    destruct (AudioSegment_from_wav ext _); [right; left; reflexivity |].
    destruct (AudioSegment_export ext _ _); [right; right; reflexivity |].
    cbn [disk create].
    rewrite !bool_decide_eq_true_2 by set_solver.
    reflexivity.
Qed.

Lemma try_body_disk w total_files i file_path s :
  disk (fst (try_body ext w total_files i file_path (basename file_path) s))
  = disk (fst (pipeline ext w file_path (basename file_path) s)).
Proof.
  unfold try_body, bind, lift, act.
  destruct (pipeline ext w file_path (basename file_path) s) as [s' [e | u]];
    [reflexivity |].
  destruct (progress_value i total_files); reflexivity.
Qed.

Lemma process_file_disk w total_files i file_path s :
  disk (process_file ext w total_files i file_path s)
  = disk (fst (pipeline ext w file_path (basename file_path) s)).
Proof.
  unfold process_file. rewrite <- (try_body_disk w total_files i).
  destruct (try_body ext w total_files i file_path (basename file_path) s)
    as [s' [e | u]]; reflexivity.
Qed.


Lemma outcome_pipeline w total_files i file_path s :
  outcome ext w total_files i file_path = inr tt ->
  snd (pipeline ext w file_path (basename file_path) s) = inr tt.
Proof.
  rewrite <- (try_body_outcome ext w total_files i file_path s).
  unfold try_body, bind.
  destruct (pipeline ext w file_path (basename file_path) s) as [s' [e | []]];
    [discriminate | reflexivity].
Qed.

(** The output folder after the iteration of a file that succeeds. *)
Lemma process_file_disk_success w total_files i file_path s :
  outcome ext w total_files i file_path = inr tt ->
  disk (process_file ext w total_files i file_path s)
  = if direct w then {[ output_file w file_path ]} ∪ disk s
    else if String.eqb (target_format w) "mp3"
    then ({[ output_file w file_path ]} ∪ ({[ temp_wav w file_path ]} ∪ disk s))
         ∖ {[ temp_wav w file_path ]}
    else disk s.
Proof.
  intros Hok. rewrite process_file_disk.
  pose proof (outcome_pipeline w total_files i file_path s Hok) as Hp.
  destruct (pipeline_cases w file_path s) as [[e He] | [o Ho]].
  - rewrite He in Hp. discriminate.
  - rewrite Ho in *. pose proof (save_disk w file_path o s) as Hs.
    cbv zeta in Hs. rewrite Hp in Hs.
    destruct (direct w); [exact Hs |].
    destruct (String.eqb (target_format w) "mp3"); [exact Hs | apply Hs].
Qed.

(** The output folder after the iteration of any file: only the output
    file and the temporary file of that file can appear, and only the
    temporary file can disappear. *)
Lemma process_file_disk_frame w total_files i file_path s :
  let s' := process_file ext w total_files i file_path s in
  (if String.eqb (target_format w) "mp3"
   then disk s ∖ {[ temp_wav w file_path ]} ⊆ disk s'
        /\ disk s' ⊆ {[ output_file w file_path ]} ∪ {[ temp_wav w file_path ]} ∪ disk s
   else disk s ⊆ disk s'
        /\ disk s' ⊆ {[ output_file w file_path ]} ∪ disk s)
  /\ (direct w = false -> String.eqb (target_format w) "mp3" = false ->
      disk s' = disk s).
Proof.
  cbv zeta. rewrite process_file_disk.
  destruct (pipeline_cases w file_path s) as [[e He] | [o Ho]].
  - rewrite He. cbn [fst]. split; [| reflexivity].
    destruct (String.eqb (target_format w) "mp3"); set_solver.
  - rewrite Ho. pose proof (save_disk w file_path o s) as Hs. cbv zeta in Hs.
    set (r := save ext w (fst (splitext (basename file_path)))
                (output_file w file_path) o s) in *.
    unfold direct in *.
    destruct (existsb (String.eqb (target_format w)) direct_formats) eqn:Hd.
    + assert (Hm : String.eqb (target_format w) "mp3" = false).
      { cbn [existsb direct_formats] in Hd.
        destruct (String.eqb_spec (target_format w) "mp3") as [E |]; [| reflexivity].
        rewrite E in Hd. discriminate. }
      rewrite Hm. split; [| discriminate].
      destruct (snd r); rewrite Hs; set_solver.
    + destruct (String.eqb (target_format w) "mp3").
      * split; [| discriminate].
        destruct (snd r); [destruct Hs as [Hs | [Hs | Hs]] |]; rewrite Hs; set_solver.
      * destruct Hs as [Hs _]. rewrite Hs. split; [set_solver | reflexivity].
Qed.


(** A relation between the output folder before and after that every
    iteration keeps is kept by the loop and by the run. *)
Lemma run_loop_disk (R : gset string -> gset string -> Prop) w stop_requested
    total_files files :
  (forall a, R a a) ->
  (forall a b c, R a b -> R b c -> R a c) ->
  (forall i p s, p ∈ files ->
     R (disk s) (disk (process_file ext w total_files i p s))) ->
  forall i s, R (disk s) (disk (run_loop ext w stop_requested total_files i files s)).
Proof.
  intros Hrefl Htrans. induction files as [| p rest IH]; intros Hstep i s.
  - apply Hrefl.
  - cbn [run_loop].
    set (s1 := if stop_requested i then stop s else s).
    assert (Hs1 : disk s1 = disk s) by (subst s1; destruct (stop_requested i); reflexivity).
    destruct (is_running s1); cbn [negb]; [| rewrite Hs1; apply Hrefl].
    rewrite <- Hs1.
    apply Htrans with (disk (process_file ext w total_files i p s1)).
    + apply Hstep. apply elem_of_cons; auto.
    + apply IH. intros j q s' Hq. apply Hstep. apply elem_of_cons; auto.
Qed.

Lemma run_disk (R : gset string -> gset string -> Prop) w stop_requested d :
  (forall a, R a a) ->
  (forall a b c, R a b -> R b c -> R a c) ->
  (forall i p s, p ∈ input_files w ->
     R (disk s) (disk (process_file ext w (length (input_files w)) i p s))) ->
  R d (disk (run ext w stop_requested (init d))).
Proof.
  intros Hrefl Htrans Hstep. unfold run. cbn [emit disk].
  apply (run_loop_disk R w stop_requested _ _ Hrefl Htrans Hstep 0 (init d)).
Qed.

Lemma direct_not_mp3 w : direct w = true -> String.eqb (target_format w) "mp3" = false.
Proof.
  unfold direct. cbn [existsb direct_formats]. intros Hd.
  destruct (String.eqb_spec (target_format w) "mp3") as [E |]; [| reflexivity].
  rewrite E in Hd. discriminate.
Qed.

(** X8. A run touches only its own files: whatever was on disk before
    and is not one of the run's temporary names is still there afterwards,
    and whatever is there afterwards is an output name or a temporary name
    of one of the input files, or was there before. *)
Theorem run_touches_only_its_own_files w stop_requested d :
  let outs : gset string := list_to_set (output_file w <$> input_files w) in
  let temps : gset string := list_to_set (temp_wav w <$> input_files w) in
  let final := disk (run ext w stop_requested (init d)) in
  d ∖ temps ⊆ final /\ final ⊆ outs ∪ temps ∪ d.
Proof.
  intros outs temps final. subst final.
  apply (run_disk (fun a b => a ∖ temps ⊆ b /\ b ⊆ outs ∪ temps ∪ a)).
  - intros a. set_solver.
  - intros a b c [H1 H2] [H3 H4]. split; [| set_solver].
    intros x Hx. apply H3. apply elem_of_difference in Hx as [Hx Hn].
    apply elem_of_difference. split; [| exact Hn]. apply H1. set_solver.
  - intros i p s Hp.
    assert (Ho : output_file w p ∈ outs)
      by (apply elem_of_list_to_set, list_elem_of_fmap; eauto).
    assert (Ht : temp_wav w p ∈ temps)
      by (apply elem_of_list_to_set, list_elem_of_fmap; eauto).
    destruct (process_file_disk_frame w (length (input_files w)) i p s) as [H _].
    cbv zeta in H.
    destruct (String.eqb (target_format w) "mp3"); destruct H as [H1 H2];
      split; set_solver.
Qed.

(** X9. With a target format other than mp3 a run deletes nothing and
    creates only files under the output names of its inputs; with a format
    that is none of wav, flac, ogg and mp3 it leaves the disk as it was. *)
Theorem run_without_mp3_never_deletes w stop_requested d :
  target_format w <> "mp3" ->
  let outs : gset string := list_to_set (output_file w <$> input_files w) in
  let final := disk (run ext w stop_requested (init d)) in
  d ⊆ final /\ final ⊆ outs ∪ d /\ (direct w = false -> final = d).
Proof.
  intros Hfmt outs final. subst final.
  assert (Hm : String.eqb (target_format w) "mp3" = false)
    by (now apply String.eqb_neq).
  split; [| split].
  - apply (run_disk (fun a b => a ⊆ b)); [set_solver | set_solver |].
    intros i p s _.
    destruct (process_file_disk_frame w (length (input_files w)) i p s) as [H _].
    cbv zeta in H. rewrite Hm in H. apply H.
  - apply (run_disk (fun a b => b ⊆ outs ∪ a)); [set_solver | set_solver |].
    intros i p s Hp.
    assert (Ho : output_file w p ∈ outs)
      by (apply elem_of_list_to_set, list_elem_of_fmap; eauto).
    destruct (process_file_disk_frame w (length (input_files w)) i p s) as [H _].
    cbv zeta in H. rewrite Hm in H. set_solver.
  - intros Hd. apply (run_disk (fun a b => b = a)); [reflexivity | congruence |].
    intros i p s _.
    destruct (process_file_disk_frame w (length (input_files w)) i p s) as [_ H].
    now apply H.
Qed.

(** The loop when nothing stops it and every file succeeds, for a format
    written directly. *)
Lemma run_loop_disk_all_succeed w total_files files : forall i s,
  direct w = true ->
  is_running s = true ->
  (forall j p, files !! j = Some p -> outcome ext w total_files (i + j) p = inr tt) ->
  disk (run_loop ext w (fun _ => false) total_files i files s)
  = list_to_set (output_file w <$> files) ∪ disk s.
Proof.
  induction files as [| p rest IH]; intros i s Hd Hs Hok.
  - cbn. set_solver.
  - cbn [run_loop]. rewrite Hs. cbn [negb].
    rewrite IH; [| exact Hd | now rewrite process_file_running |].
    + rewrite process_file_disk_success, Hd.
      * cbn [fmap list_fmap list_to_set]. set_solver.
      * specialize (Hok 0%nat p eq_refl). now rewrite Nat.add_0_r in Hok.
    + intros j q Hq. replace (S i + j)%nat with (i + S j)%nat by lia.
      now apply Hok.
Qed.

(** X10. An uncancelled run with a directly written format (wav, flac,
    ogg) in which every file succeeds leaves exactly the output names of
    its inputs on disk, besides what was there before. *)
Theorem direct_run_leaves_named_outputs w d :
  direct w = true ->
  (forall j p, input_files w !! j = Some p ->
     outcome ext w (length (input_files w)) j p = inr tt) ->
  disk (run ext w (fun _ => false) (init d))
  = list_to_set (output_file w <$> input_files w) ∪ d.
Proof.
  intros Hd Hok. unfold run. cbn [emit disk].
  now rewrite run_loop_disk_all_succeed.
Qed.

(** X11. A file that is converted to mp3 successfully leaves its mp3
    under the output name, and its temporary wav is gone. *)
Theorem mp3_success_removes_temp w total_files i file_path s :
  target_format w = "mp3" ->
  outcome ext w total_files i file_path = inr tt ->
  let s' := process_file ext w total_files i file_path s in
  disk s' = ({[ output_file w file_path ]} ∪ disk s) ∖ {[ temp_wav w file_path ]}
  /\ temp_wav w file_path ∉ disk s'.
Proof.
  intros Hfmt Hok s'. subst s'.
  rewrite (process_file_disk_success w total_files i file_path s Hok).
  unfold direct. rewrite Hfmt. cbn. set_solver.
Qed.

End DiskFacts.

(** ** Runs under any schedule of stop requests *)

Section MoreRunFacts.

Context {os_path : OsPath} (ext : Externals).

Lemma iterations_le stop_requested n : forall i, iterations stop_requested i n <= n.
Proof.
  induction n as [| n IH]; intros i; cbn [iterations]; [lia |].
  destruct (stop_requested i); [lia |]. specialize (IH (S i)). lia.
Qed.

(** The loop under any schedule of stop requests. *)
Lemma run_loop_iterations w stop_requested total_files files : forall i s,
  is_running s = true ->
  let n := iterations stop_requested i (length files) in
  let s' := run_loop ext w stop_requested total_files i files s in
  emitted s' = emitted s ++ loop_signals ext w total_files i (take n files)
  /\ is_running s' = bool_decide (n = length files).
Proof.
  induction files as [| p rest IH]; intros i s Hs; cbv zeta.
  - cbn. rewrite app_nil_r. auto.
  - cbn [run_loop length iterations].
    destruct (stop_requested i) eqn:Hi.
    + cbn. rewrite app_nil_r. auto.
    + rewrite Hs. cbn [negb take loop_signals].
      destruct (IH (S i) (process_file ext w total_files i p s)
                  ltac:(now rewrite process_file_running)) as [He Hr].
      cbv zeta in He, Hr. rewrite He, Hr, process_file_emitted, <- app_assoc.
      split; [reflexivity |].
      apply bool_decide_ext. lia.
Qed.

Lemma run_stream w stop_requested d :
  let total_files := length (input_files w) in
  let n := iterations stop_requested 0 total_files in
  let s := run ext w stop_requested (init d) in
  emitted s = loop_signals ext w total_files 0 (take n (input_files w)) ++ [finished]
  /\ labels (emitted s)
     = imap (fun j p => status_label (basename p) (outcome ext w total_files j p))
         (take n (input_files w)).
Proof.
  cbv zeta. unfold run. cbn [emit emitted].
  destruct (run_loop_iterations w stop_requested (length (input_files w))
              (input_files w) 0 (init d) eq_refl) as [He _].
  cbv zeta in He. rewrite He. cbn [init emitted app].
  split; [reflexivity |].
  rewrite labels_app, labels_loop_signals. cbn. now rewrite app_nil_r.
Qed.


(** The progress values of consecutive iterations: each is the percentage
    of one of these iterations, and they never decrease. *)
Lemma loop_progress w total_files files : forall i,
  i + length files <= total_files ->
  let pv := progress_values (loop_signals ext w total_files i files) in
  Forall (fun p => exists j, i <= j < i + length files
                             /\ p = progress_percent j total_files) pv
  /\ StronglySorted Z.le pv.
Proof.
  induction files as [| f rest IH]; intros i Hlen; cbv zeta.
  - cbn. split; constructor.
  - cbn [loop_signals length] in *.
    rewrite progress_values_app, progress_values_file_signals.
    destruct (IH (S i) ltac:(lia)) as [Hall Hsorted]. cbv zeta in Hall, Hsorted.
    assert (Hall' : Forall (fun p => exists j, i <= j < i + S (length rest)
                                     /\ p = progress_percent j total_files)
                      (progress_values (loop_signals ext w total_files (S i) rest))).
    { eapply Forall_impl; [exact Hall |]. cbn. intros p (j & Hj & ->).
      exists j. split; [lia | reflexivity]. }
    destruct (outcome ext w total_files i f); cbn [app].
    + split; assumption.
    + split.
      * constructor; [exists i; split; [lia | reflexivity] | exact Hall'].
      * constructor; [exact Hsorted |].
        eapply Forall_impl; [exact Hall |]. cbn. intros p (j & Hj & ->).
        apply progress_percent_mono. lia.
Qed.

Lemma run_progress_values w stop_requested d :
  exists n, n <= length (input_files w) /\
    progress_values (emitted (run ext w stop_requested (init d)))
    = progress_values (loop_signals ext w (length (input_files w)) 0
                         (take n (input_files w))).
Proof.
  unfold run. cbn [emit emitted].
  destruct (run_loop_prefix ext w stop_requested (length (input_files w))
              (input_files w) 0 (init d)) as (n & Hn & ->).
  exists n. split; [exact Hn |].
  cbn [init emitted app]. rewrite progress_values_app. cbn. now rewrite app_nil_r.
Qed.

Lemma run_progress_range w stop_requested d :
  Forall (fun p => (0 <= p <= 100)%Z)
    (progress_values (emitted (run ext w stop_requested (init d)))).
Proof.
  destruct (run_progress_values w stop_requested d) as (n & Hn & ->).
  destruct (loop_progress w (length (input_files w)) (take n (input_files w)) 0)
    as [Hall _]; [rewrite length_take; lia |].
  eapply Forall_impl; [exact Hall |]. cbn. intros p (j & Hj & ->).
  apply progress_percent_range. rewrite length_take in Hj. lia.
Qed.

(** X6. Every progress value a run emits lies between 0 and 100, the
    range of the progress bar, whatever the files, the failures and the
    stop requests. *)
Theorem progress_values_within_bar_range w stop_requested d :
  Forall (fun p => (0 <= p <= 100)%Z)
    (progress_values (emitted (run ext w stop_requested (init d)))).
Proof. exact (run_progress_range w stop_requested d). Qed.

(** X7. The progress values of a run never decrease, also across failed
    files and in double-precision arithmetic. *)
Theorem progress_never_decreases w stop_requested d :
  StronglySorted Z.le
    (progress_values (emitted (run ext w stop_requested (init d)))).
Proof.
  destruct (run_progress_values w stop_requested d) as (n & Hn & ->).
  apply (loop_progress w (length (input_files w)) (take n (input_files w)) 0).
  rewrite length_take. lia.
Qed.

(** With an unknown method the pipeline raises before the save step. *)
Lemma unknown_method_pipeline w file_path s :
  normalize_method w <> "peak" -> normalize_method w <> "rms" ->
  normalize_method w <> "loudness" ->
  direct w = true \/ target_format w = "mp3" ->
  exists e, pipeline ext w file_path (basename file_path) s = (s, inl e).
Proof.
  intros Hp Hr Hl Hfmt. unfold pipeline, bind, lift.
  destruct (librosa_load ext file_path (negb (stereo w))) as [e | [audio sr]];
    [eauto |].
  rewrite (normalize_unknown _ _ _ Hp Hr Hl). cbn [fst snd].
  destruct (negb (sr =? sample_rate w)%Z); [cbn; eauto |].
  unfold ret, save. fold (direct w).
  destruct Hfmt as [Hd | Hm].
  - rewrite Hd. cbn. eauto.
  - destruct (direct w) eqn:Hd; [cbn; eauto |]. rewrite Hm. cbn. eauto.
Qed.

(** X13. A worker built with a method name other than peak, rms and
    loudness processes nothing: under any stop schedule the run emits no
    progress value, leaves the disk untouched, and every per-file label is
    the error label of one of the input files. *)
Theorem unknown_method_run w stop_requested d :
  normalize_method w <> "peak" -> normalize_method w <> "rms" ->
  normalize_method w <> "loudness" ->
  direct w = true \/ target_format w = "mp3" ->
  let s := run ext w stop_requested (init d) in
  progress_values (emitted s) = []
  /\ disk s = d
  /\ Forall (fun l => exists p e, p ∈ input_files w /\ l = error_label (basename p) e)
       (labels (emitted s)).
Proof.
  intros Hp Hr Hl Hfmt. cbv zeta.
  assert (Hout : forall total_files i p,
             exists e, outcome ext w total_files i p = inl e).
  { intros total_files i p.
    destruct (unknown_method_pipeline w p (init ∅) Hp Hr Hl Hfmt) as [e He].
    exists e. unfold outcome, try_body, bind. now rewrite He. }
  split; [| split].
  - destruct (run_progress_values w stop_requested d) as (n & Hn & ->).
    rewrite progress_values_loop_signals.
    induction (take n (input_files w)) as [| p l IH] using rev_ind; [reflexivity |].
    rewrite imap_app, concat_app, IH. cbn.
    destruct (Hout (length (input_files w)) (length l + 0) p) as [e ->].
    reflexivity.
  - apply (run_disk ext (fun a b => b = a)); [reflexivity | congruence |].
    intros i p s _. rewrite process_file_disk.
    destruct (unknown_method_pipeline w p s Hp Hr Hl Hfmt) as [e ->]. reflexivity.
  - destruct (run_stream w stop_requested d) as (_ & ->).
    apply Forall_forall. intros l Hl'.
    apply elem_of_lookup_imap in Hl' as (j & p & -> & Hj).
    destruct (Hout (length (input_files w)) j p) as [e ->].
    exists p, e. split; [| reflexivity].
    apply list_elem_of_lookup_2 in Hj. eapply subseteq_take, Hj.
Qed.

End MoreRunFacts.

(** ** Files that succeed *)

Section Success.

Context {os_path : OsPath} (ext : Externals).

Lemma normalize_known m L audio :
  m ∈ known_methods -> flat audio <> [] ->
  exists a, normalize m L audio = inr (Some a).
Proof.
  intros Hm Hne. unfold known_methods in Hm.
  repeat (apply elem_of_cons in Hm as [-> | Hm]); [| | | inversion Hm].
  - unfold normalize. simpl String.eqb. cbv iota.
    destruct (flat audio) as [| x xs]; [contradiction |].
    cbn [np_abs map np_max]. eauto.
  - destruct audio; unfold normalize; simpl String.eqb; cbv iota zeta; eauto.
  - destruct audio; unfold normalize; simpl String.eqb; cbv iota zeta; eauto.
Qed.

Lemma save_cooperative w base_name out a s :
  cooperative ext ->
  snd (save ext w base_name out (Some a) s) = inr tt.
Proof.
  intros (_ & Hw & Hf & He). unfold save.
  destruct (existsb (String.eqb (target_format w)) direct_formats).
  - unfold bind, read_local, ret, write. now rewrite Hw.
  - destruct (String.eqb (target_format w) "mp3"); [| reflexivity].
    unfold bind, read_local, ret, write, from_wav, export, os_remove.
    rewrite Hw. cbn [disk create].
    rewrite bool_decide_eq_true_2 by set_solver. rewrite Hf, He.
    cbn [disk create]. rewrite bool_decide_eq_true_2 by set_solver.
    reflexivity.
Qed.

(** X16. On a machine whose resampler, writer and transcoder do not fail,
    a file that decodes to a buffer with at least one sample is processed
    successfully under each of the three methods: the iteration emits the
    progress value and then the file's name. *)
Theorem decodable_file_succeeds w total_files i file_path audio sr :
  cooperative ext ->
  normalize_method w ∈ known_methods ->
  librosa_load ext file_path (negb (stereo w)) = inr (audio, sr) ->
  flat audio <> [] ->
  i < total_files ->
  outcome ext w total_files i file_path = inr tt
  /\ file_signals ext w total_files i file_path
     = [progress_updated (progress_percent i total_files);
        file_processed (basename file_path)].
Proof.
  intros Hco Hm Hload Hne Hi.
  assert (Hsave : forall a', snd (
      match save ext w (fst (splitext (basename file_path)))
              (join (output_folder w)
                 (fst (splitext (basename file_path)) +:+ "." +:+ target_format w))
              (Some a') (init ∅) with
      | (s', inr _) =>
          match progress_value i total_files with
          | inr p => (emit (file_processed (basename file_path))
                        (emit (progress_updated p) s'), inr tt)
          | inl e => (s', inl e)
          end
      | (s', inl e) => (s', inl e)
      end) = inr tt).
  { intros a'.
    pose proof (save_cooperative w (fst (splitext (basename file_path)))
                  (join (output_folder w)
                     (fst (splitext (basename file_path)) +:+ "." +:+ target_format w))
                  a' (init ∅) Hco) as Hs.
    destruct (save ext w _ _ (Some a') (init ∅)) as [s' [e | []]];
      cbn [snd] in Hs; [discriminate |].
    now rewrite (progress_percent_value i total_files Hi). }
  assert (Hout : outcome ext w total_files i file_path = inr tt).
  { unfold outcome, try_body, pipeline, bind, lift, act.
    destruct (normalize_known _ (target_level w) audio Hm Hne) as [a Ha].
    rewrite Hload. cbn [fst snd]. rewrite Ha.
    destruct (negb (sr =? sample_rate w)%Z).
    - cbn [read_local]. unfold ret.
      destruct Hco as (Hr & _). destruct (Hr a sr (sample_rate w)) as [r ->].
      specialize (Hsave r).
      destruct (save ext w _ _ (Some r) (init ∅)) as [s' [e | []]]; [exact Hsave |].
      destruct (progress_value i total_files); exact Hsave.
    - unfold ret. specialize (Hsave a).
      destruct (save ext w _ _ (Some a) (init ∅)) as [s' [e | []]]; [exact Hsave |].
      destruct (progress_value i total_files); exact Hsave. }
  split; [exact Hout |]. rewrite file_signals_outcome, Hout. reflexivity.
Qed.

End Success.

(** ** The window *)

Section GuiFacts.

Context {os_path : OsPath} (ext : Externals).
Variable os_makedirs os_startfile : string -> option exn.

Lemma same_session_refl win : Gui.same_session win win.
Proof. repeat split. Qed.

Lemma same_session_trans win1 win2 win3 :
  Gui.same_session win1 win2 -> Gui.same_session win2 win3 ->
  Gui.same_session win1 win3.
Proof.
  unfold Gui.same_session. intros H1 H2.
  destruct H1 as (?&?&?&?&?&?&?&?&?), H2 as (?&?&?&?&?&?&?&?&?).
  repeat split; congruence.
Qed.

Lemma same_session_setValue v win : Gui.same_session win (Gui.setValue v win).
Proof. unfold Gui.setValue. destruct (_ && _); repeat split. Qed.

Lemma same_session_setStatus t win : Gui.same_session win (Gui.setStatus t win).
Proof. repeat split. Qed.

Lemma last_cons_default {A} (x : A) l d :
  default d (last (x :: l)) = default x (last l).
Proof. rewrite last_cons. destruct (last l); reflexivity. Qed.

(** The per-file signals of a stream, delivered: no slot raises, the bar
    holds the last progress value, the status line the last label. *)
Lemma deliver_per_file sigs : forall win,
  finished ∉ sigs ->
  Forall (fun p => (0 <= p <= 100)%Z) (progress_values sigs) ->
  exists win',
    Gui.deliver os_startfile sigs win = (win', None)
    /\ Gui.same_session win win'
    /\ Gui.progress_bar win'
       = default (Gui.progress_bar win) (last (progress_values sigs))
    /\ Gui.status_label win'
       = default (Gui.status_label win)
           (String.append "Processing: " <$> last (labels sigs)).
Proof.
  induction sigs as [| sig rest IH]; intros win Hfin Hrange.
  - exists win. cbn. auto using same_session_refl.
  - apply not_elem_of_cons in Hfin as [Hsig Hfin].
    destruct sig as [v | l |]; [| | congruence].
    + cbn [progress_values] in Hrange. apply Forall_cons in Hrange as [Hv Hrange].
      destruct (IH (Gui.update_progress v win) Hfin Hrange)
        as (win' & Hd & Hs & Hb & Ht).
      exists win'. cbn [Gui.deliver Gui.slot]. rewrite Hd.
      split; [reflexivity |]. split; [| split].
      * eapply same_session_trans; [| exact Hs]. apply same_session_setValue.
      * cbn [progress_values]. rewrite last_cons_default, Hb.
        unfold Gui.update_progress, Gui.setValue.
        destruct (Z.leb_spec 0 v); [| lia].
        destruct (Z.leb_spec v 100); [| lia]. reflexivity.
      * rewrite Ht. cbn [labels]. unfold Gui.update_progress, Gui.setValue.
        destruct (_ && _); reflexivity.
    + destruct (IH (Gui.update_status l win) Hfin Hrange)
        as (win' & Hd & Hs & Hb & Ht).
      exists win'. cbn [Gui.deliver Gui.slot]. rewrite Hd.
      split; [reflexivity |]. split; [| split].
      * eapply same_session_trans; [| exact Hs]. apply same_session_setStatus.
      * rewrite Hb. reflexivity.
      * cbn [labels]. rewrite Ht, last_cons.
        destruct (last (labels rest)); reflexivity.
Qed.


(** A run's stream cut in two: the first part holds per-file signals only,
    the second part ends in [finished]. *)
Lemma run_stream_split w stop_requested d pre post :
  emitted (run ext w stop_requested (init d)) = pre ++ post -> post <> [] ->
  exists post', post = post' ++ [finished]
    /\ (finished ∉ pre ++ post')
    /\ Forall (fun p => (0 <= p <= 100)%Z) (progress_values (pre ++ post')).
Proof.
  intros He Hpost.
  destruct (run_stream ext w stop_requested d) as (Hs & _).
  cbv zeta in Hs.
  pose proof (run_progress_range ext w stop_requested d) as Hrange.
  rewrite Hs in He, Hrange.
  destruct (exists_last Hpost) as (post' & x & ->).
  rewrite app_assoc in He. apply app_inj_tail in He as [He Hx]. subst x.
  exists post'. split; [reflexivity |]. rewrite <- He. split.
  - apply finished_not_in_loop_signals.
  - rewrite progress_values_app in Hrange. cbn in Hrange.
    now rewrite app_nil_r in Hrange.
Qed.



(** [process_files] on a window whose combo boxes point at their items:
    the settings read from the widgets, and the window after the slot. *)
Lemma process_files_valid win folder :
  Gui.valid (Gui.options win) ->
  Gui.audio_files win <> [] ->
  Gui.selected_folder win = Some folder ->
  let out := join folder "Normalized Audio" in
  os_makedirs out = None ->
  exists w,
    Gui.process_files os_makedirs win
    = (Gui.log (Gui.start w)
         (Gui.setWorker w
            (Gui.setButtons false false true (Gui.log (Gui.makedirs out) win))),
       None)
    /\ input_files w = Gui.audio_files win
    /\ output_folder w = out
    /\ target_level w = Gui.level_spin (Gui.options win)
    /\ stereo w = Gui.stereo_check (Gui.options win)
    /\ normalize_method w ∈ known_methods
    /\ (direct w = true \/ target_format w = "mp3")
    /\ bit_depth w ∈ [16; 24; 32]%Z
    /\ sample_rate w ∈ [44100; 48000; 96000]%Z.
Proof.
  intros (Hm & Hf & Hb & Hs) Hfiles Hfolder out Hmk.
  unfold Gui.process_files. rewrite Hfolder. fold out. rewrite Hmk.
  destruct (Gui.audio_files win) as [| p ps] eqn:Ha; [contradiction |].
  cbn [Gui.options Gui.log].
  destruct (Gui.options win) as [m L f b sr st]. cbn in Hm, Hf, Hb, Hs |- *.
  assert (Hb' : b = 0 \/ b = 1 \/ b = 2) by lia.
  assert (Hs' : sr = 0 \/ sr = 1 \/ sr = 2) by lia.
  assert (Hm' : m = 0 \/ m = 1 \/ m = 2) by lia.
  assert (Hf' : f = 0 \/ f = 1 \/ f = 2 \/ f = 3) by lia.
  clear Hm Hf Hb Hs.
  destruct Hb' as [-> | [-> | ->]]; destruct Hs' as [-> | [-> | ->]];
    cbn; eexists; (split; [reflexivity |]); cbn; rewrite ?Ha;
    (split; [reflexivity |]); (split; [reflexivity |]);
    (split; [reflexivity |]); (split; [reflexivity |]);
    (split; [destruct Hm' as [-> | [-> | ->]]; cbn; unfold known_methods;
             rewrite !elem_of_cons; auto |]);
    (split; [destruct Hf' as [-> | [-> | [-> | ->]]]; cbn; auto |]);
    split; rewrite !elem_of_cons; auto.
Qed.

(** X15. Choosing a folder that holds audio files and pressing "Process
    Files", with every combo box at one of its items: the slot raises no
    exception, creates the folder "Normalized Audio" inside the chosen
    one, locks the buttons and starts a worker over the files found, with
    a method the worker's dispatch knows, a format its save step handles,
    a bit depth of 16, 24 or 32 and a sample rate of 44100, 48000 or
    96000. *)
Theorem window_starts_handled_job win0 folder glob :
  Gui.valid (Gui.options win0) ->
  folder <> "" ->
  concat (map glob Gui.patterns) <> [] ->
  os_makedirs (join folder "Normalized Audio") = None ->
  let out := join folder "Normalized Audio" in
  let win := Gui.select_folder folder glob win0 in
  exists w,
    Gui.process_files os_makedirs win
    = (Gui.log (Gui.start w)
         (Gui.setWorker w
            (Gui.setButtons false false true (Gui.log (Gui.makedirs out) win))),
       None)
    /\ input_files w = concat (map glob Gui.patterns)
    /\ output_folder w = out
    /\ target_level w = Gui.level_spin (Gui.options win0)
    /\ stereo w = Gui.stereo_check (Gui.options win0)
    /\ normalize_method w ∈ known_methods
    /\ (direct w = true \/ target_format w = "mp3")
    /\ bit_depth w ∈ [16; 24; 32]%Z
    /\ sample_rate w ∈ [44100; 48000; 96000]%Z.
Proof.
  intros Hv Hfolder Hfiles Hmk. cbv zeta.
  assert (Hsel : let win := Gui.select_folder folder glob win0 in
            Gui.options win = Gui.options win0
            /\ Gui.audio_files win = concat (map glob Gui.patterns)
            /\ Gui.selected_folder win = Some folder).
  { cbv zeta. unfold Gui.select_folder.
    apply String.eqb_neq in Hfolder. rewrite Hfolder.
    destruct (concat (map glob Gui.patterns)); [contradiction |]. cbn. auto. }
  cbv zeta in Hsel. destruct Hsel as (Ho & Ha & Hs).
  destruct (process_files_valid (Gui.select_folder folder glob win0) folder)
    as (w & Hp & Hin & Hout & Hl & Hst & Hrest);
    [now rewrite Ho | now rewrite Ha | exact Hs | exact Hmk |].
  exists w. rewrite Hp, Hin, Hout, Hl, Hst, Ha, Ho. auto 10.
Qed.



(** X19. While a run is under way, after any part of its signals has been
    delivered no slot has raised, the bar shows the last progress value
    emitted and the status line reads "Processing: " followed by the last
    label, the error label of a failed file included; buttons, folder and
    worker are as they were. *)
Theorem window_shows_latest_signal win w stop_requested d pre post :
  emitted (run ext w stop_requested (init d)) = pre ++ post ->
  post <> [] ->
  exists win',
    Gui.deliver os_startfile pre win = (win', None)
    /\ Gui.same_session win win'
    /\ Gui.progress_bar win'
       = default (Gui.progress_bar win) (last (progress_values pre))
    /\ Gui.status_label win'
       = default (Gui.status_label win)
           (String.append "Processing: " <$> last (labels pre)).
Proof.
  intros He Hpost.
  destruct (run_stream_split w stop_requested d pre post He Hpost)
    as (post' & -> & Hfin & Hrange).
  apply not_elem_of_app in Hfin as [Hpre _].
  rewrite progress_values_app in Hrange. apply Forall_app in Hrange as [Rpre _].
  exact (deliver_per_file pre win Hpre Rpre).
Qed.

End GuiFacts.

(** ** Output names under POSIX path rules *)

Module PosixFacts.
Import posixpath.

Lemma append_cons c (a b : string) : String c a +:+ b = String c (a +:+ b).
Proof. reflexivity. Qed.

Lemma append_nil (b : string) : EmptyString +:+ b = b.
Proof. reflexivity. Qed.

Lemma append_assoc (a b c : string) : (a +:+ b) +:+ c = a +:+ (b +:+ c).
Proof.
  induction a as [| x a IH]; [reflexivity |]. now rewrite !append_cons, IH.
Qed.

Lemma free_of_app p a b :
  free_of p (a +:+ b) = free_of p a && free_of p b.
Proof.
  induction a as [| c a IH]; [reflexivity |].
  rewrite append_cons. cbn [free_of]. rewrite IH. now rewrite andb_assoc.
Qed.

Lemma split_sep_free t : free_of is_sep t = true -> split_sep t = (EmptyString, t).
Proof.
  induction t as [| c t IH]; [reflexivity |]. cbn [free_of split_sep].
  intros [Hc Ht]%andb_prop. rewrite (IH Ht).
  apply negb_true_iff in Hc. now rewrite Hc.
Qed.

Lemma split_sep_last h t :
  free_of is_sep t = true ->
  split_sep (h +:+ "/" +:+ t) = (h +:+ "/", t).
Proof.
  intros Ht. induction h as [| c h IH].
  - rewrite !append_nil, !append_cons, append_nil. cbn [split_sep].
    now rewrite (split_sep_free t Ht).
  - rewrite (append_cons c h). cbn [split_sep]. rewrite IH.
    destruct h; reflexivity.
Qed.

Lemma ends_with_sep_spec a :
  ends_with_sep a = true -> exists h, a = h +:+ "/".
Proof.
  induction a as [| c a IH]; [discriminate |].
  cbn [ends_with_sep]. destruct a as [| c' a'].
  - intros Hc. exists EmptyString. unfold is_sep in Hc.
    apply Ascii.eqb_eq in Hc. now subst c.
  - intros H. destruct (IH H) as [h ->]. exists (String c h). reflexivity.
Qed.

(** The last component of a joined path is the name joined on. *)
Lemma basename_join a name :
  name <> EmptyString -> free_of is_sep name = true ->
  basename (join a name) = name.
Proof.
  intros Hne Hfree. unfold basename, join.
  destruct name as [| c rest]; [contradiction |].
  pose proof Hfree as Hfree'. cbn [free_of] in Hfree'.
  apply andb_prop in Hfree' as [Hc _]. apply negb_true_iff in Hc. rewrite Hc.
  destruct (ends_with_sep a) eqn:He; cbn [orb].
  - destruct (ends_with_sep_spec a He) as [h ->].
    rewrite append_assoc. now rewrite (split_sep_last h _ Hfree).
  - destruct (String.eqb_spec a "") as [-> | Ha].
    + rewrite append_nil. now rewrite (split_sep_free _ Hfree).
    + now rewrite (split_sep_last a _ Hfree).
Qed.

Lemma split_dot_free seen e : free_of is_dot e = true -> split_dot seen e = None.
Proof.
  revert seen. induction e as [| c e IH]; intros seen; [reflexivity |].
  cbn [free_of split_dot]. intros [Hc He]%andb_prop. rewrite (IH _ He).
  apply negb_true_iff in Hc. now rewrite Hc.
Qed.

Lemma split_dot_stem stem e : forall seen,
  free_of is_dot stem = true -> free_of is_dot e = true ->
  seen = true \/ stem <> EmptyString ->
  split_dot seen (stem +:+ "." +:+ e) = Some (stem, "." +:+ e).
Proof.
  induction stem as [| c stem IH]; intros seen Hs He Hseen.
  - destruct Hseen as [-> | []]; [| reflexivity].
    rewrite append_nil, !append_cons, append_nil. cbn [split_dot].
    now rewrite (split_dot_free _ e He).
  - cbn [free_of] in Hs. apply andb_prop in Hs as [Hc Hs].
    apply negb_true_iff in Hc.
    rewrite (append_cons c stem). cbn [split_dot]. rewrite Hc. cbn [negb].
    rewrite (IH _ Hs He) by (left; apply orb_true_r). reflexivity.
Qed.

(** The stem of [stem.e]. *)
Lemma splitext_plain stem e :
  plain stem -> free_of is_sep e = true -> free_of is_dot e = true ->
  splitext (stem +:+ "." +:+ e) = (stem, "." +:+ e).
Proof.
  intros (Hne & Hsep & Hdot) Hes Hed. unfold splitext.
  rewrite split_sep_free.
  - now rewrite (split_dot_stem stem e false Hdot Hed (or_intror Hne)).
  - rewrite !free_of_app, Hsep, Hes. reflexivity.
Qed.

Lemma name_plain stem e :
  plain stem -> free_of is_sep e = true ->
  stem +:+ "." +:+ e <> EmptyString
  /\ free_of is_sep (stem +:+ "." +:+ e) = true.
Proof.
  intros (Hne & Hsep & _) He. split.
  - destruct stem; [contradiction | discriminate].
  - rewrite !free_of_app, Hsep, He. reflexivity.
Qed.

End PosixFacts.

Section PosixNames.

#[local] Existing Instance posixpath.os_path.

(** X12. Under POSIX path rules the output of a file is named by the stem
    of its name alone: for [folder/stem.e] the output is
    [output_folder/stem.target_format] and the temporary file
    [output_folder/stem_temp.wav], whatever the folder and the extension.
    Two inputs that differ only in their extension (a.wav and a.mp3) are
    therefore written to the same output file. *)
Theorem outputs_named_by_stem_only w folder stem e :
  plain stem ->
  free_of posixpath.is_sep e = true ->
  free_of posixpath.is_dot e = true ->
  let file_path := posixpath.join folder (stem +:+ "." +:+ e) in
  basename file_path = stem +:+ "." +:+ e
  /\ output_file w file_path
     = posixpath.join (output_folder w) (stem +:+ "." +:+ target_format w)
  /\ temp_wav w file_path
     = posixpath.join (output_folder w) (stem +:+ "_temp.wav").
Proof.
  intros Hstem Hes Hed. cbv zeta.
  destruct (PosixFacts.name_plain stem e Hstem Hes) as [Hne Hfree].
  unfold output_file, temp_wav. cbn [basename splitext join posixpath.os_path].
  rewrite (PosixFacts.basename_join folder _ Hne Hfree).
  rewrite (PosixFacts.splitext_plain stem e Hstem Hes Hed).
  auto.
Qed.

End PosixNames.

(** ** Concrete instances *)

Section ConcreteExtras.

#[local] Existing Instance posixpath.os_path.
Local Open Scope R_scope.

(** Three channels of two frames: the rms branch returns two of them. *)
Lemma normalize_keeps_frames_witness :
  let audio := Arr2 [Fin 1; Fin 0] [Fin 0; Fin 1] [[Fin 1; Fin 1]] in
  let target_rms := target_amplitude (-5) in
  let normalized_audio :=
    Arr2 (scale (rms_gain target_rms (rms [Fin 1; Fin 0])) [Fin 1; Fin 0])
         (scale (rms_gain target_rms (rms [Fin 0; Fin 1])) [Fin 0; Fin 1]) [] in
  shape audio = [2; 2; 2]%nat
  /\ shape normalized_audio
     = (if String.eqb "rms" "rms" then take 2 (shape audio) else shape audio).
Proof.
  split; [reflexivity |].
  apply (normalize_keeps_frames "rms" (-5)
           (Arr2 [Fin 1; Fin 0] [Fin 0; Fin 1] [[Fin 1; Fin 1]])).
  reflexivity.
Defined.


End ConcreteExtras.

Section ConcreteRuns.

#[local] Existing Instance posixpath.os_path.

Lemma run_without_mp3_never_deletes_witness :
  let w := Studio.job ["/in/a.wav"] "wav" in
  let d : gset string := {[ "/out/old.wav" ]} in
  let outs : gset string := list_to_set (output_file w <$> input_files w) in
  let final := disk (run Studio.world w Studio.never (init d)) in
  d ⊆ final /\ final ⊆ outs ∪ d /\ (direct w = false -> final = d).
Proof.
  apply (run_without_mp3_never_deletes Studio.world
           (Studio.job ["/in/a.wav"] "wav") Studio.never {[ "/out/old.wav" ]}).
  discriminate.
Defined.

Lemma direct_run_leaves_named_outputs_witness :
  let w := Studio.job ["/in/a.wav"; "/in/b.wav"] "flac" in
  disk (run Studio.world w (fun _ => false) (init ∅))
  = list_to_set (output_file w <$> input_files w) ∪ ∅.
Proof.
  apply (direct_run_leaves_named_outputs Studio.world
           (Studio.job ["/in/a.wav"; "/in/b.wav"] "flac") ∅).
  - reflexivity.
  - intros j p Hp. destruct j as [| [| j]]; [| | discriminate];
      injection Hp as <-; vm_compute; reflexivity.
Defined.

Lemma mp3_success_removes_temp_witness :
  let w := Studio.job ["/in/a.wav"] "mp3" in
  let s' := process_file Studio.world w 1 0 "/in/a.wav" (init ∅) in
  disk s' = ({[ output_file w "/in/a.wav" ]} ∪ disk (init ∅))
            ∖ {[ temp_wav w "/in/a.wav" ]}
  /\ temp_wav w "/in/a.wav" ∉ disk s'.
Proof.
  apply (mp3_success_removes_temp Studio.world (Studio.job ["/in/a.wav"] "mp3")
           1 0 "/in/a.wav" (init ∅)).
  - reflexivity.
  - vm_compute. reflexivity.
Defined.

Lemma unknown_method_run_witness :
  let s := run Studio.world Desk.odd_job Studio.never (init ∅) in
  progress_values (emitted s) = []
  /\ disk s = ∅
  /\ Forall (fun l => exists p e, p ∈ input_files Desk.odd_job
                                  /\ l = error_label (basename p) e)
       (labels (emitted s)).
Proof.
  apply (unknown_method_run Studio.world Desk.odd_job Studio.never ∅).
  - discriminate.
  - discriminate.
  - discriminate.
  - left. reflexivity.
Defined.

Lemma decodable_file_succeeds_witness :
  let w := Studio.job ["/in/a.wav"; "/in/b.wav"] "mp3" in
  outcome Studio.world w 2 1 "/in/b.wav" = inr tt
  /\ file_signals Studio.world w 2 1 "/in/b.wav"
     = [progress_updated (progress_percent 1 2); file_processed (basename "/in/b.wav")].
Proof.
  apply (decodable_file_succeeds Studio.world
           (Studio.job ["/in/a.wav"; "/in/b.wav"] "mp3") 2 1 "/in/b.wav"
           (Arr1 [Fin 0]) 44100%Z).
  - split; [| split; [| split]].
    + intros y orig_sr target_sr. exists y. reflexivity.
    + reflexivity.
    + reflexivity.
    + reflexivity.
  - apply list_elem_of_here.
  - reflexivity.
  - discriminate.
  - lia.
Defined.

Lemma outputs_named_by_stem_only_witness :
  let w := Studio.job [] "flac" in
  let file_path := posixpath.join "/music" ("take1" +:+ "." +:+ "aiff") in
  basename file_path = "take1" +:+ "." +:+ "aiff"
  /\ output_file w file_path
     = posixpath.join (output_folder w) ("take1" +:+ "." +:+ target_format w)
  /\ temp_wav w file_path
     = posixpath.join (output_folder w) ("take1" +:+ "_temp.wav").
Proof.
  apply (outputs_named_by_stem_only (Studio.job [] "flac") "/music" "take1" "aiff").
  - split; [discriminate |]. split; reflexivity.
  - reflexivity.
  - reflexivity.
Defined.

End ConcreteRuns.

Section ConcreteWindow.

#[local] Existing Instance posixpath.os_path.

Lemma window_starts_handled_job_witness :
  let out := join "/music" "Normalized Audio" in
  let win := Gui.select_folder "/music" Desk.glob Gui.init_ui in
  exists w,
    Gui.process_files Desk.os_makedirs win
    = (Gui.log (Gui.start w)
         (Gui.setWorker w
            (Gui.setButtons false false true (Gui.log (Gui.makedirs out) win))),
       None)
    /\ input_files w = concat (map Desk.glob Gui.patterns)
    /\ output_folder w = out
    /\ target_level w = Gui.level_spin (Gui.options Gui.init_ui)
    /\ stereo w = Gui.stereo_check (Gui.options Gui.init_ui)
    /\ normalize_method w ∈ known_methods
    /\ (direct w = true \/ target_format w = "mp3")
    /\ bit_depth w ∈ [16; 24; 32]%Z
    /\ sample_rate w ∈ [44100; 48000; 96000]%Z.
Proof.
  apply (window_starts_handled_job Desk.os_makedirs Gui.init_ui "/music" Desk.glob).
  - repeat split; simpl; lia.
  - discriminate.
  - discriminate.
  - reflexivity.
Defined.



Lemma window_shows_latest_signal_witness :
  let pre := [progress_updated 50; file_processed "a.wav";
              file_processed "ERROR: bad.wav - Error opening '/in/bad.wav': Format not recognised."] in
  exists win',
    Gui.deliver Desk.os_startfile pre Desk.started = (win', None)
    /\ Gui.same_session Desk.started win'
    /\ Gui.progress_bar win'
       = default (Gui.progress_bar Desk.started) (last (progress_values pre))
    /\ Gui.status_label win'
       = default (Gui.status_label Desk.started)
           (String.append "Processing: " <$> last (labels pre)).
Proof.
  apply (window_shows_latest_signal Studio.world Desk.os_startfile Desk.started
           (Studio.job ["/in/a.wav"; "/in/bad.wav"] "wav") Studio.never ∅
           [progress_updated 50; file_processed "a.wav";
            file_processed "ERROR: bad.wav - Error opening '/in/bad.wav': Format not recognised."]
           [finished]).
  - vm_compute. reflexivity.
  - discriminate.
Defined.

End ConcreteWindow.
